(** * A shallow embedding of the [wow] API client ([api_client.go])

    The Go package is a thin client for a region-partitioned REST API.
    This development embeds its request-construction logic: region and
    locale resolution, the character-field validator, the URL builder,
    the signing stub and the resource getters.

    Conventions.
    - Go strings are [string]; [[]byte] is [string] as well (a Go string
      is a byte sequence and the only conversions used are [[]byte(s)]).
    - A Go [error] is modelled by its message ([errors.New]).
    - Go maps are reference values: they live in a heap and are passed by
      reference; [nil] is a legal value of a map type.
    - Methods with a pointer receiver run in a state monad whose state
      holds the receiver object, the map heap and the observable events
      (clock readings, requests handed to the HTTP client).
    - Library code outside the package (net/http, crypto/hmac,
      encoding/json, the record types of sibling files) is taken as a
      parameter of the development, except for the few pure functions
      the facts need (joining, base64, the writing of header values),
      which are written out. *)

From Stdlib Require Import String Ascii List ZArith NArith Lia Bool.
From stdpp Require Import base option list gmap strings pretty.

Local Open Scope string_scope.
Local Open Scope list_scope.

(** ** Strings: the fragments of [strings] and [fmt] the package uses *)

Module Strings.

(** [strings.Join(elems, sep)]. *)
Fixpoint Join (elems : list string) (sep : string) : string :=
  match elems with
  | [] => ""
  | [e] => e
  | e :: rest => e +:+ sep +:+ Join rest sep
  end.

(** The line feed, Go's ["\n"]. *)
Definition newline : string := String (ascii_of_nat 10) "".

(** [s] occurs in [t] as a contiguous block. *)
Definition occurs_in (s t : string) : Prop :=
  ∃ pre post, t = pre +:+ s +:+ post.

(** [t] ends with [s]. *)
Definition ends_with (s t : string) : Prop :=
  ∃ pre, t = pre +:+ s.

End Strings.

(** ** Errors and results *)

(** [errors.New(msg)]: an error value is its message. *)
Record error := errors_New { Error : string }.

(** The Go idiom of returning a pointer together with an error: either
    a value with a nil error, or nil with an error. *)
Inductive result (A : Type) :=
| Ok (a : A)
| Err (err : error).
Arguments Ok {A} a.
Arguments Err {A} err.

(** A computation either returns or panics. *)
Inductive outcome (A : Type) :=
| Done (a : A)
| Panicked (reason : string).
Arguments Done {A} a.
Arguments Panicked {A} reason.

(** ** The client object *)

Record ApiClient := mkApiClient {
  Host : string;
  Locale : string;
  Secret : string;
  PublicKey : string;
}.

(** ** [NewApiClient]: region and locale resolution *)

(** A [case] clause with several labels. *)
Definition case_of (labels : list string) (tag : string) : bool :=
  existsb (String.eqb tag) labels.
Global Arguments case_of : simpl never.

(** The [switch region] of [NewApiClient]: the host and the valid
    locales of a region, [None] for the [default] clause. *)
Definition regionSwitch (region : string) : option (string * list string) :=
  if case_of ["US"; "United States"] region then
    Some ("us.battle.net", ["en_US"; "es_MX"; "pt_BR"])
  else if case_of ["EU"; "Europe"] region then
    Some ("eu.battle.net",
          ["en_GB"; "es_ES"; "fr_FR"; "ru_RU"; "de_DE"; "pt_PT"; "it_IT"])
  else if case_of ["KR"; "Korea"] region then
    Some ("kr.battle.net", ["ko_KR"])
  else if case_of ["TW"; "Taiwan"] region then
    Some ("tw.battle.net", ["zh_TW"])
  else if case_of ["ZH"; "CN"; "China"] region then
    Some ("www.battle.com.cn", ["zh_CN"])
  else None.

(** The loop [for _, valid := range validLocales] with its early
    return: [Some client] when an entry equals [locale]. *)
Fixpoint scanLocales (host locale : string) (validLocales : list string)
  : option ApiClient :=
  match validLocales with
  | [] => None
  | valid :: rest =>
      if String.eqb valid locale
      then Some (mkApiClient host locale "" "")
      else scanLocales host locale rest
  end.

Definition NewApiClient (region locale : string) : outcome (result ApiClient) :=
  match regionSwitch region with
  | None =>
      Done (Err (errors_New ("Region '" +:+ region +:+ "' is not valid")))
  | Some (host, validLocales) =>
      if String.eqb locale "" then
        match validLocales !! 0%nat with
        | Some first => Done (Ok (mkApiClient host first "" ""))
        | None => Panicked "index out of range"
        end
      else
        match scanLocales host locale validLocales with
        | Some a => Done (Ok a)
        | None =>
            Done (Err (errors_New ("Locale '" +:+ locale +:+
                                   "' is not valid for region '" +:+
                                   region +:+ "'")))
        end
  end.

(** The region identifiers the switch knows, grouped by clause. *)
Definition regionAliases : list (list string) :=
  [ ["US"; "United States"]; ["EU"; "Europe"]; ["KR"; "Korea"];
    ["TW"; "Taiwan"]; ["ZH"; "CN"; "China"] ].

Definition supportedRegion (region : string) : Prop :=
  ∃ clause, clause ∈ regionAliases ∧ region ∈ clause.

(** Two identifiers are aliases when they are labels of one clause. *)
Definition alias (r1 r2 : string) : Prop :=
  ∃ clause, clause ∈ regionAliases ∧ r1 ∈ clause ∧ r2 ∈ clause.

(** The error of [NewApiClient] for a locale the region does not have. *)
Definition localeError (locale region : string) : error :=
  errors_New ("Locale '" +:+ locale +:+ "' is not valid for region '" +:+
              region +:+ "'").

(** ** [validateCharacterFields] *)

Definition characterFields : list string :=
  [ "achievements"; "appearance"; "feed"; "guild"; "hunterPets"; "items";
    "mounts"; "pets"; "petSlots"; "professions"; "progression"; "pvp";
    "quests"; "reputation"; "stats"; "talents"; "titles" ].

(** The loop of [validateCharacterFields]: [badFields] after the
    remaining [fields] have been visited. *)
Fixpoint collectBad (badFields fields : list string) : list string :=
  match fields with
  | [] => badFields
  | field :: rest =>
      if case_of characterFields field
      then collectBad badFields rest
      else collectBad (badFields ++ [field]) rest
  end.

(** [fmt.Sprintf("%v", xs)] for [xs []string]. *)
Definition sprint_slice (xs : list string) : string :=
  "[" +:+ Strings.Join xs " " +:+ "]".

Definition validateCharacterFields (fields : list string) : option error :=
  let badFields := collectBad [] fields in
  if negb (Nat.eqb (length badFields) 0) then
    Some (errors_New ("The following fields are not valid: " +:+
                      sprint_slice badFields))
  else None.

(** ** [encoding/base64]: the standard encoding with padding *)

Module base64.

Definition encodeStd : string :=
  "ABCDEFGHIJKLMNOPQRSTUVWXYZabcdefghijklmnopqrstuvwxyz0123456789+/".

(** The character of a six-bit value. *)
Definition digit (v : N) : ascii :=
  default "="%char (list_ascii_of_string encodeStd !! N.to_nat (N.land v 63)).

(** Three source bytes give four characters; one or two trailing
    bytes are padded with ['=']. *)
Fixpoint encode (src : list N) : string :=
  match src with
  | [] => ""
  | [b0] =>
      let val := N.shiftl b0 16 in
      String (digit (N.shiftr val 18))
        (String (digit (N.shiftr val 12)) "==")
  | [b0; b1] =>
      let val := N.lor (N.shiftl b0 16) (N.shiftl b1 8) in
      String (digit (N.shiftr val 18))
        (String (digit (N.shiftr val 12))
           (String (digit (N.shiftr val 6)) "="))
  | b0 :: b1 :: b2 :: rest =>
      let val := N.lor (N.lor (N.shiftl b0 16) (N.shiftl b1 8)) b2 in
      String (digit (N.shiftr val 18))
        (String (digit (N.shiftr val 12))
           (String (digit (N.shiftr val 6))
              (String (digit val) (encode rest))))
  end.

(** [base64.StdEncoding.EncodeToString(src)]. *)
Definition EncodeToString (src : string) : string :=
  encode (N_of_ascii <$> list_ascii_of_string src).

End base64.

(** ** [net/url] and [net/http]: the values the package builds *)

Module net_url.
Record URL := mkURL {
  Scheme : string;
  Host : string;
  Path : string;
  RawQuery : string;
}.
End net_url.

Module http.

Record Request := mkRequest {
  Method : string;
  URL : net_url.URL;
  Header : list (string * string);
}.

(** [request.Header.Add(key, value)]: the value is appended to the
    values of the key. *)
Definition Header_Add (request : Request) (key value : string) : Request :=
  mkRequest (Method request) (URL request) (Header request ++ [(key, value)]).

(** [request.Header.Get(key)]: the first value of the key. *)
Definition Header_Get (request : Request) (key : string) : option string :=
  snd <$> head (filter (λ kv, kv.1 = key) (Header request)).

(** *** How [net/http] writes header values

    A request handed to [client.Do] is not written as it stands. The
    transport refuses a value with a control character other than the
    tab ([httpguts.ValidHeaderFieldValue]); [Header.Write] then replaces
    line breaks by spaces and trims the value ([textproto.TrimString])
    before it writes the line. *)

Definition isCTL (b : ascii) : bool :=
  (N_of_ascii b <? 32)%N || (N_of_ascii b =? 127)%N.

Definition isLWS (b : ascii) : bool :=
  (N_of_ascii b =? 32)%N || (N_of_ascii b =? 9)%N.

Fixpoint ValidHeaderFieldValue (v : string) : bool :=
  match v with
  | "" => true
  | String b rest =>
      negb (isCTL b && negb (isLWS b)) && ValidHeaderFieldValue rest
  end.

(** [headerNewlineToSpace.Replace(v)]. *)
Fixpoint newlineToSpace (v : string) : string :=
  match v with
  | "" => ""
  | String b rest =>
      String (if (N_of_ascii b =? 10)%N || (N_of_ascii b =? 13)%N
              then " "%char else b)
             (newlineToSpace rest)
  end.

Definition isASCIISpace (b : ascii) : bool :=
  (N_of_ascii b =? 32)%N || (N_of_ascii b =? 9)%N ||
  (N_of_ascii b =? 10)%N || (N_of_ascii b =? 13)%N.

(** The first loop of [TrimString]: drop the leading spaces. *)
Fixpoint trimLeft (s : string) : string :=
  match s with
  | "" => ""
  | String b rest => if isASCIISpace b then trimLeft rest else s
  end.

(** The second loop of [TrimString]: drop the trailing spaces. *)
Fixpoint trimRight (s : string) : string :=
  match s with
  | "" => ""
  | String b rest =>
      match trimRight rest with
      | "" => if isASCIISpace b then "" else String b ""
      | kept => String b kept
      end
  end.

Definition TrimString (s : string) : string := trimRight (trimLeft s).

(** The lines that go out for the headers of a request, as names and
    values; [None] when the transport refuses the request for one of
    its values. The one name the package uses is a valid header name.
    The client adds lines of its own (Host, User-Agent and the like),
    which are not listed. *)
Definition written (request : Request) : option (list (string * string)) :=
  if forallb (λ kv, ValidHeaderFieldValue kv.2) (Header request)
  then Some ((λ kv, (kv.1, TrimString (newlineToSpace kv.2)))
               <$> Header request)
  else None.

End http.

(** [json.Unmarshal] into a value of type [T]. *)
Class Unmarshal (T : Type) := json_Unmarshal : string → result T.

(** ** The state the methods run in *)

(** A Go map value: [nil], or a reference into the heap of maps. *)
Definition mapref := option nat.

(** What a run does that can be observed from outside. *)
Inductive event :=
| Ranged                          (* a [for ... range] over a map *)
| ClockRead                       (* [time.Now()] *)
| Sent (request : http.Request).  (* [client.Do(request)]: the request
                                     as the package hands it over *)

Record World := mkWorld {
  receiver : ApiClient;               (* the object the receiver points to *)
  maps : list (gmap string string);   (* the heap of maps *)
  trace : list event;                 (* events so far, oldest first *)
}.

Definition M (A : Type) : Type := World → outcome A * World.

Definition ret {A} (a : A) : M A := λ w, (Done a, w).

Definition bind {A B} (m : M A) (k : A → M B) : M B :=
  λ w, match m w with
       | (Done a, w') => k a w'
       | (Panicked reason, w') => (Panicked reason, w')
       end.

Definition panic {A} (reason : string) : M A := λ w, (Panicked reason, w).

Global Instance M_ret : MRet M := @ret.
Global Instance M_bind : MBind M := λ A B k m, bind m k.

(** Reading the receiver: [a.Host], [a.Locale], ... *)
Definition self : M ApiClient := λ w, (Done (receiver w), w).

(** [make(map[string]string)] and map literals: a fresh map on the heap. *)
Definition new_map (init : gmap string string) : M mapref :=
  λ w, (Done (Some (length (maps w))),
        mkWorld (receiver w) (maps w ++ [init]) (trace w)).

(** [m[key] = value]; assignment to an entry of a nil map panics. *)
Definition map_assign (m : mapref) (key value : string) : M unit :=
  λ w, match m with
       | None => (Panicked "assignment to entry in nil map", w)
       | Some l =>
           match maps w !! l with
           | Some entries =>
               (Done (), mkWorld (receiver w)
                                 (<[l := <[key := value]> entries]> (maps w))
                                 (trace w))
           | None => (Panicked "dangling map reference", w)
           end
       end.

(** The entries of a map value; a nil map has none. *)
Definition map_entries (m : mapref) (w : World) : gmap string string :=
  match m with
  | None => ∅
  | Some l => default ∅ (maps w !! l)
  end.

(** ** The methods of [ApiClient] *)

(** *** What the package takes from outside *)

(** The Go runtime and the libraries behind the calls of the package. *)
Class Runtime := {
  (** The text of [time.Now().String()] at an instant; instants are
      counted by the events so far. *)
  now : nat → string;
  (** The order in which a [range] visits the entries of a map. Go
      leaves it unspecified and varies it between loops. *)
  range_order : nat → gmap string string → list (string * string);
  (** [http.NewRequest(method, u.String(), nil)] writes the URL out and
      parses the text again: the URL of the request it returns (of
      which the four fields of [net_url.URL] are kept), or its error. The parsed
      URL need not be the one written: a fragment sign in the query,
      for one, ends the query. *)
  parsed : string → net_url.URL → result net_url.URL;
  (** [client.Do(request)], with whatever the client does on the
      network for it (redirects included), and
      [ioutil.ReadAll(response.Body)]. *)
  Response : Type;
  round_trip : nat → http.Request → result Response;
  ioutil_ReadAll : Response → result string;
  (** [mac.Write(p)] for [mac := hmac.New(sha1.New, key)]: the error it
      returns, if any. *)
  hmac_Write : string → string → option error;
}.

(** The record types of the package (declared in sibling files) with
    their decoders. *)
Class Records := {
  Achievement : Type;
  AuctionData : Type;
  BattlePetAbility : Type;
  BattlePetSpecies : Type;
  BattlePet : Type;
  Challenge : Type;
  challengeSet : Type;
  Character : Type;
  Challenges : challengeSet → list Challenge;
  Achievement_Unmarshal :: Unmarshal Achievement;
  AuctionData_Unmarshal :: Unmarshal AuctionData;
  BattlePetAbility_Unmarshal :: Unmarshal BattlePetAbility;
  BattlePetSpecies_Unmarshal :: Unmarshal BattlePetSpecies;
  BattlePet_Unmarshal :: Unmarshal BattlePet;
  challengeSet_Unmarshal :: Unmarshal challengeSet;
  Character_Unmarshal :: Unmarshal Character;
}.

(** A call of a method on the client, exported or not. *)
Inductive call :=
| Call_GetAchievement (id : Z)
| Call_GetAuctionData (realm : string)
| Call_GetBattlePetAbility (id : Z)
| Call_GetBattlePetSpecies (id : Z)
| Call_GetBattlePet (id level breedId qualityId : Z)
| Call_GetBattlePetStats (id level breedId qualityId : Z)
| Call_GetChallenges (realm : string)
| Call_GetChallenge (realm : string)
| Call_GetCharacter (realm characterName : string)
| Call_GetCharacterWithFields (realm characterName : string)
    (fields : list string)
| Call_get (path : string)
| Call_getWithParams (path : string) (queryParams : mapref)
| Call_url (path : string) (queryParamPairs : mapref)
| Call_authorizationString (signature : string)
| Call_signature (verb path : string).

(** The calls that go through [getWithParams], where requests are
    built and sent. *)
Definition fetches (c : call) : bool :=
  match c with
  | Call_url _ _ | Call_authorizationString _ | Call_signature _ _ => false
  | _ => true
  end.

Section Methods.

Context `{Runtime, Records}.

(** *** Effects *)

Definition time_Now_String : M string :=
  λ w, (Done (now (length (trace w))),
        mkWorld (receiver w) (maps w) (trace w ++ [ClockRead])).

(** [for k, v := range m]: the entries in the order of this loop. *)
Definition map_range (m : mapref) : M (list (string * string)) :=
  λ w, (Done (match m with
              | None => []
              | Some _ => range_order (length (trace w)) (map_entries m w)
              end),
        mkWorld (receiver w) (maps w) (trace w ++ [Ranged])).

Definition http_NewRequest (method : string) (u : net_url.URL)
  : result http.Request :=
  match parsed method u with
  | Err err => Err err
  | Ok u' => Ok (http.mkRequest method u' [])
  end.

(** [client.Do(request)]. The event is the call, with the request as
    it is handed over. What the client then does on the network for
    it (it writes the headers, see [http.written], and may follow
    redirects with requests of its own) belongs to the runtime, of
    which only the final answer comes back. *)
Definition client_Do (request : http.Request) : M (result Response) :=
  λ w, (Done (round_trip (length (trace w)) request),
        mkWorld (receiver w) (maps w) (trace w ++ [Sent request])).

(** [handleError(err)]. *)
Definition handleError {A} (err : error) : M A := panic (Error err).

(** *** [url] *)

(** The body of the loop [queryParamList = append(queryParamList, k + "=" + v)]. *)
Fixpoint appendPairs (queryParamList : list string)
    (entries : list (string * string)) : list string :=
  match entries with
  | [] => queryParamList
  | (k, v) :: rest => appendPairs (queryParamList ++ [k +:+ "=" +:+ v]) rest
  end.

Definition url (path : string) (queryParamPairs : mapref) : M net_url.URL :=
  a ← self;
  map_assign queryParamPairs "locale" (Locale a);;
  entries ← map_range queryParamPairs;
  let queryParamList := appendPairs [] entries in
  mret (net_url.mkURL "http" (Host a) ("/api/wow/" +:+ path)
                      (Strings.Join queryParamList "&")).

(** *** [authorizationString] and [signature] *)

Definition authorizationString (signature : string) : M string :=
  a ← self;
  mret (" BNET " +:+ PublicKey a +:+ ":" +:+ signature).

Definition signature (verb path : string) : M string :=
  fresh ← new_map ∅;
  u ← url path fresh;
  stamp ← time_Now_String;
  let toBeSigned :=
    Strings.Join [verb; stamp; net_url.Path u; ""] Strings.newline in
  a ← self;
  match hmac_Write (Secret a) toBeSigned with
  | Some err => handleError err
  | None => mret ()
  end;;
  mret (base64.EncodeToString "hi").

(** *** [getWithParams] and [get] *)

(** Both return the body together with the error; on an error the
    body is the empty slice. The deferred [response.Body.Close()] has
    no effect on the state modelled here. *)
Definition getWithParams (path : string) (queryParams : mapref)
  : M (string * option error) :=
  u ← url path queryParams;
  match http_NewRequest "GET" u with
  | Err err => mret ("", Some err)
  | Ok request =>
      a ← self;
      request ←
        (if (0 <? String.length (Secret a))%nat then
           sig ← signature "GET" path;
           auth ← authorizationString sig;
           mret (http.Header_Add request "Authorization" auth)
         else mret request);
      response ← client_Do request;
      match response with
      | Err err => mret ("", Some err)
      | Ok response =>
          match ioutil_ReadAll response with
          | Err err => mret ("", Some err)
          | Ok body => mret (body, None)
          end
      end
  end.

Definition get (path : string) : M (string * option error) :=
  fresh ← new_map ∅;
  getWithParams path fresh.

(** *** The resource getters *)

(** The common tail of the getters: pass the error on, or decode the
    body into a fresh record. *)
Definition decoded {T} `{!Unmarshal T} (fetched : string * option error)
  : result T :=
  match fetched with
  | (_, Some err) => Err err
  | (jsonBlob, None) => json_Unmarshal jsonBlob
  end.

(** [%d] and [strconv.Itoa]. *)
Definition Itoa (i : Z) : string := pretty i.

Definition GetAchievement (id : Z) : M (result Achievement) :=
  fetched ← get ("achievement/" +:+ Itoa id);
  mret (decoded fetched).

Definition GetAuctionData (realm : string) : M (result AuctionData) :=
  fetched ← get ("auction/data/" +:+ realm);
  mret (decoded fetched).

Definition GetBattlePetAbility (id : Z) : M (result BattlePetAbility) :=
  fetched ← get ("battlePet/ability/" +:+ Itoa id);
  mret (decoded fetched).

Definition GetBattlePetSpecies (id : Z) : M (result BattlePetSpecies) :=
  fetched ← get ("battlePet/species/" +:+ Itoa id);
  mret (decoded fetched).

Definition GetBattlePet (id level breedId qualityId : Z)
  : M (result BattlePet) :=
  params ← new_map (<["qualityId" := Itoa qualityId]>
                      (<["breedId" := Itoa breedId]>
                         (<["level" := Itoa level]> ∅)));
  fetched ← getWithParams ("battlePet/stats/" +:+ Itoa id) params;
  mret (decoded fetched).

Definition GetBattlePetStats (id level breedId qualityId : Z)
  : M (result BattlePet) :=
  GetBattlePet id level breedId qualityId.

(** Region challenges when [realm] is the empty string. *)
Definition GetChallenges (realm : string) : M (result (list Challenge)) :=
  let realm := if String.eqb realm "" then "region" else realm in
  fetched ← get ("challenge/" +:+ realm);
  mret (match decoded fetched with
        | Err err => Err err
        | Ok set => Ok (Challenges set)
        end).

Definition GetChallenge (realm : string) : M (result (list Challenge)) :=
  GetChallenges realm.

Definition GetCharacterWithFields (realm characterName : string)
    (fields : list string) : M (result Character) :=
  match validateCharacterFields fields with
  | Some err => mret (Err err)
  | None =>
      params ← new_map (<["fields" := Strings.Join fields ","]> ∅);
      fetched ← getWithParams
                  ("character/" +:+ realm +:+ "/" +:+ characterName) params;
      mret (decoded fetched)
  end.

Definition GetCharacter (realm characterName : string)
  : M (result Character) :=
  GetCharacterWithFields realm characterName [].

(** *** Calls and what they return *)

Definition returns (c : call) : Type :=
  match c with
  | Call_GetAchievement _ => result Achievement
  | Call_GetAuctionData _ => result AuctionData
  | Call_GetBattlePetAbility _ => result BattlePetAbility
  | Call_GetBattlePetSpecies _ => result BattlePetSpecies
  | Call_GetBattlePet _ _ _ _ | Call_GetBattlePetStats _ _ _ _ =>
      result BattlePet
  | Call_GetChallenges _ | Call_GetChallenge _ => result (list Challenge)
  | Call_GetCharacter _ _ | Call_GetCharacterWithFields _ _ _ =>
      result Character
  | Call_get _ | Call_getWithParams _ _ => (string * option error)%type
  | Call_url _ _ => net_url.URL
  | Call_authorizationString _ | Call_signature _ _ => string
  end.

Definition invoke (c : call) : M (returns c) :=
  match c with
  | Call_GetAchievement id => GetAchievement id
  | Call_GetAuctionData realm => GetAuctionData realm
  | Call_GetBattlePetAbility id => GetBattlePetAbility id
  | Call_GetBattlePetSpecies id => GetBattlePetSpecies id
  | Call_GetBattlePet id level breedId qualityId =>
      GetBattlePet id level breedId qualityId
  | Call_GetBattlePetStats id level breedId qualityId =>
      GetBattlePetStats id level breedId qualityId
  | Call_GetChallenges realm => GetChallenges realm
  | Call_GetChallenge realm => GetChallenge realm
  | Call_GetCharacter realm characterName => GetCharacter realm characterName
  | Call_GetCharacterWithFields realm characterName fields =>
      GetCharacterWithFields realm characterName fields
  | Call_get path => get path
  | Call_getWithParams path queryParams => getWithParams path queryParams
  | Call_url path queryParamPairs => url path queryParamPairs
  | Call_authorizationString signature => authorizationString signature
  | Call_signature verb path => signature verb path
  end.

(** A session: calls made one after the other on the same client. *)
Fixpoint session (calls : list call) (w : World) : World :=
  match calls with
  | [] => w
  | c :: rest => session rest (invoke c w).2
  end.

(** *** Vocabulary for the facts below *)

(** The tail of [getWithParams]: what it returns for the answer of
    [client.Do]. *)
Definition readBody (response : result Response) : string * option error :=
  match response with
  | Err err => ("", Some err)
  | Ok response =>
      match ioutil_ReadAll response with
      | Err err => ("", Some err)
      | Ok body => (body, None)
      end
  end.

End Methods.

(** The value [authorizationString] gives to the Authorization header
    of the client [a], for the signature [sig]. *)
Definition authorizationOf (a : ApiClient) (sig : string) : string :=
  " BNET " +:+ PublicKey a +:+ ":" +:+ sig.

(** The events of a fetch of [path] for the client [a]: loops over maps,
    a clock reading only on the authenticated branch, and requests
    that [http.NewRequest] made from a URL for the resource, with the
    Authorization header on the authenticated branch and without
    headers otherwise. *)
Definition fetch_event `{Runtime} (a : ApiClient) (path : string)
    (e : event) : Prop :=
  match e with
  | Ranged => True
  | ClockRead => Secret a ≠ ""
  | Sent request =>
      http.Method request = "GET" ∧
      (∃ u, net_url.Scheme u = "http" ∧
            net_url.Host u = Host a ∧
            net_url.Path u = "/api/wow/" +:+ path ∧
            parsed "GET" u = Ok (http.URL request)) ∧
      http.Header request =
        if decide (Secret a = "") then []
        else [("Authorization", authorizationOf a "aGk=")]
  end.

(** The events a run has added to the trace. *)
Definition added (w w' : World) (evs : list event) : Prop :=
  trace w' = trace w ++ evs.

(** A run from [w] to [w'] that fetches [path], or does nothing: the
    receiver is as before and the trace has grown by events of the
    fetch. *)
Definition fetching `{Runtime} (path : string) (w w' : World) : Prop :=
  receiver w' = receiver w ∧
  ∃ evs, added w w' evs ∧ Forall (fetch_event (receiver w) path) evs.

(** The locale of the client is one of the valid locales of the region
    it was resolved from. *)
Definition localeValid (region : string) (a : ApiClient) : Prop :=
  ∃ locales,
    regionSwitch region = Some (Host a, locales) ∧ Locale a ∈ locales.

(** ** A sample runtime, for examples *)

Module Sample.

(** A runtime in which nothing fails: every URL parses to itself, the
    server answers every request with an empty JSON object, and maps
    are visited in the order of [map_to_list]. *)
Definition runtime : Runtime := {|
  now := λ n, "2013-05-01 12:00:0" +:+ pretty n +:+ " +0000 UTC";
  range_order := λ _ entries, map_to_list entries;
  parsed := λ _ u, Ok u;
  Response := string;
  round_trip := λ _ _, Ok "{}";
  ioutil_ReadAll := λ body, Ok body;
  hmac_Write := λ _ _, None;
|}.

(** Records without fields. *)
Definition records : Records := {|
  Achievement := unit;
  AuctionData := unit;
  BattlePetAbility := unit;
  BattlePetSpecies := unit;
  BattlePet := unit;
  Challenge := unit;
  challengeSet := unit;
  Character := unit;
  Challenges := λ _, [];
  Achievement_Unmarshal := λ _, Ok ();
  AuctionData_Unmarshal := λ _, Ok ();
  BattlePetAbility_Unmarshal := λ _, Ok ();
  BattlePetSpecies_Unmarshal := λ _, Ok ();
  BattlePet_Unmarshal := λ _, Ok ();
  challengeSet_Unmarshal := λ _, Ok ();
  Character_Unmarshal := λ _, Ok ();
|}.

(** The client [NewApiClient("EU", "")] returns. *)
Definition anonymous : ApiClient :=
  mkApiClient "eu.battle.net" "en_GB" "" "".

(** A client whose owner has set the key pair. *)
Definition keyed : ApiClient :=
  mkApiClient "us.battle.net" "en_US" "s3cret" "pk".

(** The state before the first call on a client. *)
Definition start (a : ApiClient) : World := mkWorld a [] [].

(** The requests in a trace. *)
Definition requests (evs : list event) : list http.Request :=
  omap (λ e, match e with Sent request => Some request | _ => None end) evs.

End Sample.

(** ** Vocabulary for the facts about whole calls *)

(** The requests handed to [client.Do] among the events of a run,
    oldest first. *)
Definition requestsOf (evs : list event) : list http.Request :=
  omap (λ e, match e with Sent request => Some request | _ => None end) evs.

(** The item of a map entry in the query: [k + "=" + v]. *)
Definition queryItem (kv : string * string) : string :=
  kv.1 +:+ "=" +:+ kv.2.

(** The URL a fetch of [path] builds for the client [a] when the loop
    over its parameter map visits the entries in [order]. *)
Definition builtURL (a : ApiClient) (path : string)
    (order : list (string * string)) : net_url.URL :=
  net_url.mkURL "http" (Host a) ("/api/wow/" +:+ path)
                (Strings.Join (map queryItem order) "&").

(** The headers of the request a fetch hands to [client.Do]. *)
Definition headersOf (a : ApiClient) : list (string * string) :=
  if decide (Secret a = "") then []
  else [("Authorization", authorizationOf a "aGk=")].

(** The instant at which a fetch started in [w] calls [client.Do]:
    after the loop over the parameter map and, on the authenticated
    branch, after the loop and the clock reading of [signature]. *)
Definition doInstant (w : World) : nat :=
  length (trace w) + (if decide (Secret (receiver w) = "") then 1 else 3).

(** The error in a returned pair of a pointer and an error. *)
Definition result_error {A} (r : result A) : option error :=
  match r with
  | Ok _ => None
  | Err err => Some err
  end.

(** The path a call hands to [getWithParams]: the resource it fetches. *)
Definition resource (c : call) : option string :=
  match c with
  | Call_GetAchievement id => Some ("achievement/" +:+ Itoa id)
  | Call_GetAuctionData realm => Some ("auction/data/" +:+ realm)
  | Call_GetBattlePetAbility id => Some ("battlePet/ability/" +:+ Itoa id)
  | Call_GetBattlePetSpecies id => Some ("battlePet/species/" +:+ Itoa id)
  | Call_GetBattlePet id _ _ _ | Call_GetBattlePetStats id _ _ _ =>
      Some ("battlePet/stats/" +:+ Itoa id)
  | Call_GetChallenges realm | Call_GetChallenge realm =>
      Some ("challenge/" +:+ (if String.eqb realm "" then "region" else realm))
  | Call_GetCharacter realm characterName
  | Call_GetCharacterWithFields realm characterName _ =>
      Some ("character/" +:+ realm +:+ "/" +:+ characterName)
  | Call_get path | Call_getWithParams path _ => Some path
  | Call_url _ _ | Call_authorizationString _ | Call_signature _ _ => None
  end.

(** The calls that fetch through [get], with no parameter of their own. *)
Definition via_get (c : call) : bool :=
  match c with
  | Call_GetAchievement _ | Call_GetAuctionData _
  | Call_GetBattlePetAbility _ | Call_GetBattlePetSpecies _
  | Call_GetChallenges _ | Call_GetChallenge _ | Call_get _ => true
  | _ => false
  end.

(** The calls that fetch with a parameter map of their own making: the
    exported getters and [get]. *)
Definition own_map (c : call) : bool :=
  match c with
  | Call_getWithParams _ _ | Call_url _ _
  | Call_authorizationString _ | Call_signature _ _ => false
  | _ => true
  end.

(** The field names a call has validated before it fetches. *)
Definition fieldsOf (c : call) : list string :=
  match c with
  | Call_GetCharacterWithFields _ _ fields => fields
  | _ => []
  end.

(** The error a call returns beside its value, if any. *)
Definition errorOf `{Records} (c : call) : returns c → option error :=
  match c with
  | Call_GetAchievement _ => result_error
  | Call_GetAuctionData _ => result_error
  | Call_GetBattlePetAbility _ => result_error
  | Call_GetBattlePetSpecies _ => result_error
  | Call_GetBattlePet _ _ _ _ => result_error
  | Call_GetBattlePetStats _ _ _ _ => result_error
  | Call_GetChallenges _ => result_error
  | Call_GetChallenge _ => result_error
  | Call_GetCharacter _ _ => result_error
  | Call_GetCharacterWithFields _ _ _ => result_error
  | Call_get _ => snd
  | Call_getWithParams _ _ => snd
  | Call_url _ _ => λ _, None
  | Call_authorizationString _ => λ _, None
  | Call_signature _ _ => λ _, None
  end.

(** ** Runtimes in which one library call fails, for examples *)

Module Faulty.

(** No request gets an answer. *)
Definition offline : Runtime := {|
  now := @now Sample.runtime;
  range_order := @range_order Sample.runtime;
  parsed := λ _ u, Ok u;
  Response := string;
  round_trip := λ _ _, Err (errors_New "no route to host");
  ioutil_ReadAll := λ body, Ok body;
  hmac_Write := λ _ _, None;
|}.

(** [http.NewRequest] ends the query at a fragment sign, as parsing
    the written URL does; here for the one query of the examples. *)
Definition cutting : Runtime := {|
  now := @now Sample.runtime;
  range_order := @range_order Sample.runtime;
  parsed := λ _ u,
    Ok (if String.eqb (net_url.RawQuery u) "locale=en#GB"
        then net_url.mkURL (net_url.Scheme u) (net_url.Host u)
                           (net_url.Path u) "locale=en"
        else u);
  Response := string;
  round_trip := λ _ _, Ok "{}";
  ioutil_ReadAll := λ body, Ok body;
  hmac_Write := λ _ _, None;
|}.

End Faulty.

(** * Facts *)

(** ** Strings *)

Module StringFacts.

Lemma app_assoc (a b c : string) : (a +:+ b) +:+ c = a +:+ b +:+ c.
Proof.
  induction a as [|x a IH]; [done|].
  change (String x ((a +:+ b) +:+ c) = String x (a +:+ b +:+ c)).
  by rewrite IH.
Qed.

Lemma app_nil_r (a : string) : a +:+ "" = a.
Proof.
  induction a as [|x a IH]; [done|].
  change (String x (a +:+ "") = String x a). by rewrite IH.
Qed.

Lemma occurs_in_refl s : Strings.occurs_in s s.
Proof. exists "", "". by rewrite app_nil_r. Qed.

Lemma occurs_in_app_l s t pre :
  Strings.occurs_in s t → Strings.occurs_in s (pre +:+ t).
Proof.
  intros (p & q & ->). exists (pre +:+ p), q. by rewrite app_assoc.
Qed.

Lemma occurs_in_app_r s t post :
  Strings.occurs_in s t → Strings.occurs_in s (t +:+ post).
Proof.
  intros (p & q & ->). exists p, (q +:+ post). by rewrite !app_assoc.
Qed.

Lemma occurs_in_here s post : Strings.occurs_in s (s +:+ post).
Proof. by exists "", post. Qed.

(** Every element of a joined list occurs in the result. *)
Lemma Join_occurs (elems : list string) sep e :
  e ∈ elems → Strings.occurs_in e (Strings.Join elems sep).
Proof.
  induction elems as [|x [|y rest] IH]; intros Hin.
  - by apply elem_of_nil in Hin.
  - apply list_elem_of_singleton in Hin as ->. apply occurs_in_refl.
  - apply elem_of_cons in Hin as [-> | Hin].
    + change (Strings.occurs_in x (x +:+ sep +:+ Strings.Join (y :: rest) sep)).
      apply occurs_in_here.
    + change (Strings.occurs_in e (x +:+ sep +:+ Strings.Join (y :: rest) sep)).
      do 2 apply occurs_in_app_l. by apply IH.
Qed.

End StringFacts.

Example encode_hi : base64.EncodeToString "hi" = "aGk=".
Proof. reflexivity. Qed.

Example encode_foobar : base64.EncodeToString "foobar" = "Zm9vYmFy".
Proof. reflexivity. Qed.

Example encode_f : base64.EncodeToString "f" = "Zg==".
Proof. reflexivity. Qed.

(** ** Region and locale resolution *)

Lemma case_of_elem (labels : list string) tag :
  case_of labels tag = true ↔ tag ∈ labels.
Proof.
  unfold case_of. rewrite existsb_exists. split.
  - intros (x & Hin & ->%String.eqb_eq). by apply list_elem_of_In.
  - intros Hin. exists tag. split; [by apply list_elem_of_In|].
    apply String.eqb_refl.
Qed.

Lemma case_of_not_elem (labels : list string) tag :
  case_of labels tag = false ↔ tag ∉ labels.
Proof.
  rewrite <- case_of_elem. destruct (case_of labels tag); naive_solver.
Qed.

(** Case analysis on a membership in an explicit list. *)
Ltac list_cases H :=
  rewrite ?elem_of_cons, ?elem_of_nil in H;
  destruct_or! H; try (exfalso; exact H); subst.

(** Membership of a given element in an explicit list. *)
Ltac list_mem :=
  solve [repeat first [apply list_elem_of_here | apply list_elem_of_further]].

(** The identifiers of the five clauses, one by one. *)
Lemma supportedRegion_cases region :
  supportedRegion region ↔
  region ∈ ["US"; "United States"; "EU"; "Europe"; "KR"; "Korea";
            "TW"; "Taiwan"; "ZH"; "CN"; "China"].
Proof.
  unfold supportedRegion, regionAliases. split.
  - intros (clause & Hc & Hr).
    list_cases Hc; list_cases Hr; list_mem.
  - intros Hr.
    list_cases Hr;
      [ exists ["US"; "United States"] | exists ["US"; "United States"]
      | exists ["EU"; "Europe"] | exists ["EU"; "Europe"]
      | exists ["KR"; "Korea"] | exists ["KR"; "Korea"]
      | exists ["TW"; "Taiwan"] | exists ["TW"; "Taiwan"]
      | exists ["ZH"; "CN"; "China"] | exists ["ZH"; "CN"; "China"]
      | exists ["ZH"; "CN"; "China"] ];
      split; list_mem.
Qed.

(** The switch has a clause for exactly the supported identifiers. *)
Lemma regionSwitch_supported region :
  is_Some (regionSwitch region) ↔ supportedRegion region.
Proof.
  rewrite supportedRegion_cases. unfold regionSwitch. split.
  - intros Hsome.
    repeat match type of Hsome with
           | context [case_of ?ls region] =>
               let Hc := fresh "Hc" in
               destruct (case_of ls region) eqn:Hc;
               [apply case_of_elem in Hc; list_cases Hc; list_mem|]
           end.
    by destruct Hsome.
  - intros Hr.
    list_cases Hr; by eexists.
Qed.

(** No region has an empty list of locales. *)
Lemma regionSwitch_first region host locales :
  regionSwitch region = Some (host, locales) →
  ∃ first, locales !! 0%nat = Some first.
Proof.
  unfold regionSwitch. intros Hsw.
  repeat match type of Hsw with
         | context [case_of ?ls region] => destruct (case_of ls region)
         end; simplify_eq; by eexists.
Qed.

Lemma scanLocales_None host locale locales :
  scanLocales host locale locales = None ↔ locale ∉ locales.
Proof.
  induction locales as [|valid rest IH]; simpl.
  - split; [intros _; apply not_elem_of_nil | done].
  - rewrite not_elem_of_cons. destruct (String.eqb_spec valid locale) as [->|Hne].
    + split; [done | by intros [? _]].
    + rewrite IH. split; [intros ?; split; [congruence | done] | by intros [_ ?]].
Qed.

Lemma scanLocales_Some host locale locales a :
  scanLocales host locale locales = Some a →
  a = mkApiClient host locale "" "" ∧ locale ∈ locales.
Proof.
  induction locales as [|valid rest IH]; simpl; [done|].
  destruct (String.eqb_spec valid locale) as [->|Hne].
  - intros [= <-]. split; [done | apply list_elem_of_here].
  - intros [-> Hin]%IH. split; [done | by apply list_elem_of_further].
Qed.

(** What a successful construction returns. *)
Lemma NewApiClient_Ok region locale a :
  NewApiClient region locale = Done (Ok a) →
  ∃ locales,
    regionSwitch region = Some (Host a, locales) ∧
    Locale a ∈ locales ∧ Secret a = "" ∧ PublicKey a = "".
Proof.
  unfold NewApiClient. destruct (regionSwitch region) as [[host locales]|] eqn:Hsw; [|done].
  destruct (String.eqb locale "").
  - destruct (locales !! 0%nat) as [first|] eqn:Hfirst; [|done].
    intros [= <-]. exists locales. simpl. split_and!; try done.
    by eapply list_elem_of_lookup_2.
  - destruct (scanLocales host locale locales) as [a'|] eqn:Hscan; [|done].
    intros [= ->]. apply scanLocales_Some in Hscan as [-> Hin].
    by exists locales.
Qed.

(** C5. For every supported region identifier, construction with the
    empty locale succeeds and the client's locale is the first entry of
    the region's list of valid locales; region "EU" with the empty
    locale yields the locale "en_GB". *)
Theorem NewApiClient_default_locale (region : string) :
  (supportedRegion region →
   ∃ host locales first,
     regionSwitch region = Some (host, locales) ∧
     head locales = Some first ∧
     NewApiClient region "" = Done (Ok (mkApiClient host first "" ""))) ∧
  NewApiClient "EU" "" = Done (Ok (mkApiClient "eu.battle.net" "en_GB" "" "")).
Proof.
  split; [|done].
  intros [[host locales] Hsw]%regionSwitch_supported.
  destruct (regionSwitch_first _ _ _ Hsw) as [first Hfirst].
  exists host, locales, first. split; [done|]. split.
  - by destruct locales.
  - unfold NewApiClient. by rewrite Hsw, Hfirst.
Qed.

Lemma NewApiClient_default_locale_witness :
  ∃ host locales first,
    regionSwitch "Korea" = Some (host, locales) ∧
    head locales = Some first ∧
    NewApiClient "Korea" "" = Done (Ok (mkApiClient host first "" "")).
Proof.
  apply (proj1 (NewApiClient_default_locale "Korea")).
  exists ["KR"; "Korea"]. split; list_mem.
Defined.

(** C6. For every supported region identifier and every non-empty
    locale that is not in the region's list of valid locales,
    construction fails with the locale error, whose message names both
    the offending locale and the region identifier. *)
Theorem NewApiClient_invalid_locale (region locale host : string)
    (locales : list string) :
  supportedRegion region →
  regionSwitch region = Some (host, locales) →
  locale ≠ "" →
  locale ∉ locales →
  ∃ msg,
    NewApiClient region locale = Done (Err (errors_New msg)) ∧
    msg = "Locale '" +:+ locale +:+ "' is not valid for region '" +:+
          region +:+ "'" ∧
    Strings.occurs_in locale msg ∧ Strings.occurs_in region msg.
Proof.
  intros _ Hsw Hne Hnotin. eexists. split; [|split; [done|]].
  - unfold NewApiClient. rewrite Hsw.
    destruct (String.eqb_spec locale "") as [?|_]; [done|].
    apply (scanLocales_None host) in Hnotin. by rewrite Hnotin.
  - split.
    + apply StringFacts.occurs_in_app_l, StringFacts.occurs_in_here.
    + do 3 apply StringFacts.occurs_in_app_l. apply StringFacts.occurs_in_here.
Qed.

Lemma NewApiClient_invalid_locale_witness :
  ∃ msg,
    NewApiClient "Europe" "en_US" = Done (Err (errors_New msg)) ∧
    msg = "Locale 'en_US' is not valid for region 'Europe'" ∧
    Strings.occurs_in "en_US" msg ∧ Strings.occurs_in "Europe" msg.
Proof.
  apply (NewApiClient_invalid_locale "Europe" "en_US" "eu.battle.net"
           ["en_GB"; "es_ES"; "fr_FR"; "ru_RU"; "de_DE"; "pt_PT"; "it_IT"]).
  - exists ["EU"; "Europe"]. split; list_mem.
  - reflexivity.
  - discriminate.
  - intros Hin. list_cases Hin; discriminate.
Defined.

(** Aliases select the same clause of the switch. *)
Lemma alias_regionSwitch r1 r2 :
  alias r1 r2 →
  ∃ host locales,
    regionSwitch r1 = Some (host, locales) ∧
    regionSwitch r2 = Some (host, locales).
Proof.
  unfold alias, regionAliases. intros (clause & Hc & H1 & H2).
  list_cases Hc; list_cases H1; list_cases H2; by eexists _, _.
Qed.

(** C7, as amended. Two aliases of one region and any locale: either
    both constructions succeed with the same client (same host, same
    locale), or both fail with the locale error for that locale, each
    message naming the alias that was passed. *)
Theorem NewApiClient_alias (r1 r2 locale : string) :
  alias r1 r2 →
  (∃ a, NewApiClient r1 locale = Done (Ok a) ∧
        NewApiClient r2 locale = Done (Ok a)) ∨
  (NewApiClient r1 locale = Done (Err (localeError locale r1)) ∧
   NewApiClient r2 locale = Done (Err (localeError locale r2))).
Proof.
  intros (host & locales & Hsw1 & Hsw2)%alias_regionSwitch.
  unfold NewApiClient. rewrite Hsw1, Hsw2.
  destruct (String.eqb locale "").
  - destruct (regionSwitch_first _ _ _ Hsw1) as [first ->]. left. by eexists.
  - destruct (scanLocales host locale locales) as [a|]; [left; by eexists|].
    by right.
Qed.

Lemma NewApiClient_alias_witness :
  (∃ a, NewApiClient "CN" "zh_CN" = Done (Ok a) ∧
        NewApiClient "China" "zh_CN" = Done (Ok a)) ∨
  (NewApiClient "CN" "zh_CN" = Done (Err (localeError "zh_CN" "CN")) ∧
   NewApiClient "China" "zh_CN" = Done (Err (localeError "zh_CN" "China"))).
Proof.
  apply (NewApiClient_alias "CN" "China" "zh_CN").
  exists ["ZH"; "CN"; "China"]. split_and!; list_mem.
Defined.

(** C7, as stated, fails: with a locale the region does not have, the
    two aliases "US" and "United States" give different results, since
    each error message names the alias it was given. *)
Lemma NewApiClient_alias_results_differ :
  alias "US" "United States" ∧
  NewApiClient "US" "xx" =
    Done (Err (errors_New "Locale 'xx' is not valid for region 'US'")) ∧
  NewApiClient "United States" "xx" =
    Done (Err (errors_New
                 "Locale 'xx' is not valid for region 'United States'")) ∧
  NewApiClient "US" "xx" ≠ NewApiClient "United States" "xx".
Proof.
  split_and!; [|done..].
  exists ["US"; "United States"]. split_and!; list_mem.
Qed.

(** ** The character-field validator *)

Lemma collectBad_filter (badFields fields : list string) :
  collectBad badFields fields =
  badFields ++ filter (λ f, f ∉ characterFields) fields.
Proof.
  revert badFields. induction fields as [|field rest IH]; intros badFields.
  - by rewrite filter_nil, app_nil_r.
  - simpl. destruct (case_of characterFields field) eqn:Hc.
    + apply case_of_elem in Hc. rewrite IH.
      by rewrite filter_cons_False by (intros Hn; apply Hn, Hc).
    + apply case_of_not_elem in Hc. rewrite IH.
      rewrite filter_cons_True by done. by rewrite <- app_assoc.
Qed.

(** C3. The validator returns no error for every list of names drawn
    from the whitelist of 17 names; for every list with at least one
    name outside the whitelist it fails, and the message lists every
    offending name of the list. *)
Theorem validateCharacterFields_spec (fields : list string) :
  length characterFields = 17%nat ∧
  (Forall (λ f, f ∈ characterFields) fields →
   validateCharacterFields fields = None) ∧
  (Exists (λ f, f ∉ characterFields) fields →
   ∃ msg,
     validateCharacterFields fields = Some (errors_New msg) ∧
     msg = "The following fields are not valid: " +:+
           sprint_slice (filter (λ f, f ∉ characterFields) fields) ∧
     ∀ f, f ∈ fields → f ∉ characterFields → Strings.occurs_in f msg).
Proof.
  split; [done|]. unfold validateCharacterFields.
  rewrite collectBad_filter, app_nil_l. split.
  - intros Hall.
    assert (filter (λ f, f ∉ characterFields) fields = []) as ->; [|done].
    apply elem_of_nil_inv. intros f [Hbad Hin]%list_elem_of_filter.
    rewrite Forall_forall in Hall. by apply Hbad, Hall.
  - intros (f0 & Hin0 & Hbad0)%Exists_exists.
    assert (f0 ∈ filter (λ f, f ∉ characterFields) fields) as Hf0
      by by apply list_elem_of_filter.
    destruct (filter (λ f, f ∉ characterFields) fields) as [|b bad] eqn:Hbad.
    { by apply elem_of_nil in Hf0. }
    eexists. split; [done|]. split; [done|].
    intros f Hin Hnot. apply StringFacts.occurs_in_app_l.
    unfold sprint_slice. apply StringFacts.occurs_in_app_l.
    apply StringFacts.occurs_in_app_r, StringFacts.Join_occurs.
    rewrite <- Hbad. by apply list_elem_of_filter.
Qed.

Lemma validateCharacterFields_spec_witness :
  validateCharacterFields ["talents"; "guild"; "pvp"] = None ∧
  ∃ msg,
    validateCharacterFields ["guild"; "foo"; "pvp"; "bar"] =
      Some (errors_New msg) ∧
    msg = "The following fields are not valid: [foo bar]" ∧
    ∀ f, f ∈ ["guild"; "foo"; "pvp"; "bar"] → f ∉ characterFields →
         Strings.occurs_in f msg.
Proof.
  split.
  - apply (proj1 (proj2 (validateCharacterFields_spec
                           ["talents"; "guild"; "pvp"]))).
    repeat first [apply Forall_nil_2 | apply Forall_cons_2; [list_mem|]].
  - apply (proj2 (proj2 (validateCharacterFields_spec
                           ["guild"; "foo"; "pvp"; "bar"]))).
    apply Exists_cons_tl, Exists_cons_hd.
    intros Hin. unfold characterFields in Hin. list_cases Hin; discriminate.
Defined.

(** ** The writing of header values *)

Module HeaderFacts.

Lemma valid_app (a b : string) :
  http.ValidHeaderFieldValue (a +:+ b) =
  http.ValidHeaderFieldValue a && http.ValidHeaderFieldValue b.
Proof.
  induction a as [|x a IH]; [done|].
  change (negb (http.isCTL x && negb (http.isLWS x)) &&
          http.ValidHeaderFieldValue (a +:+ b) =
          negb (http.isCTL x && negb (http.isLWS x)) &&
          http.ValidHeaderFieldValue a && http.ValidHeaderFieldValue b).
  by rewrite IH, andb_assoc.
Qed.

(** A valid value has no line break to replace. *)
Lemma newlineToSpace_valid (v : string) :
  http.ValidHeaderFieldValue v = true → http.newlineToSpace v = v.
Proof.
  induction v as [|x v IH]; [done|]. simpl.
  intros [Hx Hv]%andb_true_iff. rewrite (IH Hv). f_equal.
  unfold http.isCTL, http.isLWS in Hx.
  destruct (N.eqb_spec (N_of_ascii x) 10) as [Heq|_].
  { rewrite Heq in Hx. discriminate. }
  destruct (N.eqb_spec (N_of_ascii x) 13) as [Heq|_]; [|done].
  rewrite Heq in Hx. discriminate.
Qed.

(** Trailing spaces are looked for from the end: a tail that is kept
    keeps all that comes before it. *)
Lemma trimRight_app (s t : string) :
  http.trimRight t ≠ "" →
  http.trimRight (s +:+ t) = s +:+ http.trimRight t.
Proof.
  intros Ht. induction s as [|x s IH]; [done|].
  change (http.trimRight (String x (s +:+ t)) =
          String x (s +:+ http.trimRight t)).
  simpl. rewrite IH.
  destruct (s +:+ http.trimRight t) eqn:Hst; [|done].
  destruct s; [|done]. by destruct Ht.
Qed.

(** The value [authorizationString] makes, trimmed: the leading space
    goes, the rest stays. *)
Lemma TrimString_authorization (key sig : string) :
  http.trimRight sig = sig → sig ≠ "" →
  http.TrimString (" BNET " +:+ key +:+ ":" +:+ sig) =
  "BNET " +:+ key +:+ ":" +:+ sig.
Proof.
  intros Hsig Hne. unfold http.TrimString.
  change (http.trimLeft (" BNET " +:+ key +:+ ":" +:+ sig))
    with ("BNET " +:+ key +:+ ":" +:+ sig).
  rewrite <- !StringFacts.app_assoc.
  rewrite trimRight_app by by rewrite Hsig.
  by rewrite Hsig.
Qed.

(** What goes out for a request whose one header is the value of
    [authorizationString]. *)
Lemma written_authorization method u (a : ApiClient) :
  http.written
    (http.mkRequest method u [("Authorization", authorizationOf a "aGk=")]) =
  if http.ValidHeaderFieldValue (PublicKey a)
  then Some [("Authorization", "BNET " +:+ PublicKey a +:+ ":" +:+ "aGk=")]
  else None.
Proof.
  unfold authorizationOf.
  set (v := " BNET " +:+ PublicKey a +:+ ":" +:+ "aGk=").
  assert (http.ValidHeaderFieldValue v =
          http.ValidHeaderFieldValue (PublicKey a)) as Hv.
  { unfold v. rewrite (valid_app " BNET " _), (valid_app (PublicKey a) _).
    change (http.ValidHeaderFieldValue " BNET ") with true.
    change (http.ValidHeaderFieldValue (":" +:+ "aGk=")) with true.
    by rewrite andb_true_l, andb_true_r. }
  change (http.written (http.mkRequest method u [("Authorization", v)]))
    with (if http.ValidHeaderFieldValue v && true
          then Some [("Authorization",
                      http.TrimString (http.newlineToSpace v))]
          else None).
  rewrite Hv, andb_true_r.
  destruct (http.ValidHeaderFieldValue (PublicKey a)) eqn:Hkey; [|done].
  rewrite newlineToSpace_valid by by rewrite Hv.
  unfold v. by rewrite TrimString_authorization.
Qed.

End HeaderFacts.

(** ** The methods *)

Section MethodFacts.

Context `{Runtime, Records}.

(** Unfolding the monad. *)
Ltac run :=
  unfold mbind, M_bind, bind, mret, M_ret, ret, panic, handleError,
         self, new_map, map_assign, map_range, time_Now_String, client_Do;
  simpl.

Lemma appendPairs_map (acc : list string) (entries : list (string * string)) :
  appendPairs acc entries =
  acc ++ map (λ kv, kv.1 +:+ "=" +:+ kv.2) entries.
Proof.
  revert acc. induction entries as [|[k v] rest IH]; intros acc; simpl.
  - by rewrite app_nil_r.
  - by rewrite IH, <- app_assoc.
Qed.

(** [url] on a map of the heap. *)
Lemma url_live path l entries w :
  maps w !! l = Some entries →
  let a := receiver w in
  let entries' := <["locale" := Locale a]> entries in
  url path (Some l) w =
  (Done (net_url.mkURL "http" (Host a) ("/api/wow/" +:+ path)
           (Strings.Join
              (appendPairs [] (range_order (length (trace w)) entries'))
              "&")),
   mkWorld a (<[l := entries']> (maps w)) (trace w ++ [Ranged])).
Proof.
  intros Hl. unfold url. run. rewrite Hl. simpl.
  rewrite list_lookup_insert_eq by (by eapply lookup_lt_Some). done.
Qed.

(** [url] on the nil map. *)
Lemma url_nil path w :
  url path None w = (Panicked "assignment to entry in nil map", w).
Proof. done. Qed.

(** The map that [new_map] has just put on the heap. *)
Lemma fresh_lookup (heap : list (gmap string string)) init :
  (heap ++ [init]) !! length heap = Some init.
Proof. by apply list_lookup_middle. Qed.

Lemma fresh_insert (heap : list (gmap string string)) init entries :
  <[length heap := entries]> (heap ++ [init]) = heap ++ [entries].
Proof.
  replace (length heap) with (length heap + 0)%nat by lia.
  by rewrite insert_app_r.
Qed.

(** [signature]: the fresh map it passes to [url] is live, so the only
    way not to return is a failing [mac.Write]. *)
Lemma signature_run verb path w :
  let a := receiver w in
  let w' := mkWorld a (maps w ++ [ <["locale" := Locale a]> ∅ ])
                    (trace w ++ [Ranged; ClockRead]) in
  let toBeSigned :=
    Strings.Join [verb; now (length (trace w ++ [Ranged]));
                  "/api/wow/" +:+ path; ""] Strings.newline in
  signature verb path w =
  match hmac_Write (Secret a) toBeSigned with
  | Some err => (Panicked (Error err), w')
  | None => (Done "aGk=", w')
  end.
Proof.
  unfold signature. run.
  erewrite url_live by apply fresh_lookup. simpl.
  rewrite fresh_insert, <- app_assoc. simpl.
  by destruct (hmac_Write _ _).
Qed.

Lemma Secret_length (a : ApiClient) :
  (0 <? String.length (Secret a))%nat = bool_decide (Secret a ≠ "").
Proof. by destruct (Secret a). Qed.

(** [getWithParams] on a map of the heap, step by step. *)
Lemma getWithParams_live path l entries w :
  maps w !! l = Some entries →
  let a := receiver w in
  let entries' := <["locale" := Locale a]> entries in
  let heap := <[l := entries']> (maps w) in
  let u := net_url.mkURL "http" (Host a) ("/api/wow/" +:+ path)
             (Strings.Join
                (appendPairs [] (range_order (length (trace w)) entries'))
                "&") in
  getWithParams path (Some l) w =
  match parsed "GET" u with
  | Err err => (Done ("", Some err), mkWorld a heap (trace w ++ [Ranged]))
  | Ok u' =>
      if decide (Secret a = "") then
        let request := http.mkRequest "GET" u' [] in
        (Done (readBody (round_trip (length (trace w ++ [Ranged])) request)),
         mkWorld a heap (trace w ++ [Ranged; Sent request]))
      else
        let heap' := heap ++ [ <["locale" := Locale a]> ∅ ] in
        let toBeSigned :=
          Strings.Join ["GET"; now (length (trace w ++ [Ranged; Ranged]));
                        "/api/wow/" +:+ path; ""] Strings.newline in
        match hmac_Write (Secret a) toBeSigned with
        | Some err =>
            (Panicked (Error err),
             mkWorld a heap' (trace w ++ [Ranged; Ranged; ClockRead]))
        | None =>
            let request :=
              http.mkRequest "GET" u'
                [("Authorization", authorizationOf a "aGk=")] in
            (Done (readBody
                     (round_trip
                        (length (trace w ++ [Ranged; Ranged; ClockRead]))
                        request)),
             mkWorld a heap'
               (trace w ++ [Ranged; Ranged; ClockRead; Sent request]))
        end
  end.
Proof.
  intros Hl. unfold getWithParams. run.
  erewrite url_live by done. simpl. unfold http_NewRequest.
  destruct (parsed _ _) as [u'|err]; [|done]. simpl.
  rewrite Secret_length. destruct (decide (Secret (receiver w) = "")) as [He|He].
  - rewrite bool_decide_eq_false_2 by (by intros ?). simpl.
    rewrite <- app_assoc. simpl. unfold readBody.
    by repeat case_match.
  - rewrite bool_decide_eq_true_2 by done. run.
    rewrite signature_run. simpl. rewrite <- !app_assoc. simpl.
    destruct (hmac_Write _ _) as [err|]; [done|]. simpl.
    unfold authorizationString. run. rewrite <- !app_assoc. simpl.
    unfold readBody, http.Header_Add, authorizationOf. simpl.
    by repeat case_match.
Qed.

(** [url] on a reference that is not on the heap. *)
Lemma url_dangling path l w :
  maps w !! l = None →
  url path (Some l) w = (Panicked "dangling map reference", w).
Proof. intros Hl. unfold url. run. by rewrite Hl. Qed.

Lemma getWithParams_no_map path m w :
  match m with None => True | Some l => maps w !! l = None end →
  ∃ reason, getWithParams path m w = (Panicked reason, w).
Proof.
  intros Hm. unfold getWithParams. run. destruct m as [l|].
  - rewrite url_dangling by done. by eexists.
  - rewrite url_nil. by eexists.
Qed.

(** A fetch leaves the receiver as it is, and adds only events of a
    fetch to the trace. *)
Lemma getWithParams_events path m w :
  let w' := (getWithParams path m w).2 in
  receiver w' = receiver w ∧
  ∃ evs, added w w' evs ∧ Forall (fetch_event (receiver w) path) evs.
Proof.
  unfold added.
  destruct (match m with None => None | Some l => maps w !! l end)
    as [entries|] eqn:Hm.
  - destruct m as [l|]; [|done].
    rewrite (getWithParams_live _ _ _ _ Hm). simpl.
    destruct (parsed _ _) as [u'|err] eqn:Hparsed; simpl; cycle 1.
    { split; [done|]. exists [Ranged]. split; [done|]. by repeat constructor. }
    destruct (decide (Secret (receiver w) = "")) as [He|He]; simpl.
    { split; [done|]. eexists [Ranged; Sent _]. split; [done|].
      repeat constructor; simpl; try done.
      + by eexists (net_url.mkURL _ _ _ _).
      + by rewrite decide_True. }
    destruct (hmac_Write _ _) as [err|]; simpl.
    { split; [done|]. exists [Ranged; Ranged; ClockRead]. split; [done|].
      by repeat constructor. }
    split; [done|]. eexists [Ranged; Ranged; ClockRead; Sent _].
    split; [done|]. repeat constructor; simpl; try done.
    + by eexists (net_url.mkURL _ _ _ _).
    + by rewrite decide_False.
  - destruct (getWithParams_no_map path m w) as [reason ->].
    { by destruct m. }
    simpl. split; [done|]. exists []. split; [by rewrite app_nil_r|done].
Qed.

Lemma get_events path w :
  let w' := (get path w).2 in
  receiver w' = receiver w ∧
  ∃ evs, added w w' evs ∧ Forall (fetch_event (receiver w) path) evs.
Proof.
  exact (getWithParams_events path _
           (mkWorld (receiver w) (maps w ++ [∅]) (trace w))).
Qed.

(** A pure last step does not change the state. *)
Lemma bind_pure_state {A B} (m : M A) (f : A → B) w :
  ((x ← m; mret (f x)) w).2 = (m w).2.
Proof. run. by destruct (m w) as [[a|reason] w']. Qed.

Lemma new_map_bind {B} init (k : mapref → M B) w :
  (m ← new_map init; k m) w =
  k (Some (length (maps w)))
    (mkWorld (receiver w) (maps w ++ [init]) (trace w)).
Proof. done. Qed.

(** *** Every call *)

Lemma fetching_get path {B} (f : string * option error → B) w :
  fetching path w ((fetched ← get path; mret (f fetched)) w).2.
Proof. rewrite bind_pure_state. apply get_events. Qed.

Lemma fetching_nothing path w : fetching path w w.
Proof.
  split; [done|]. exists []. split; [|done].
  unfold added. by rewrite app_nil_r.
Qed.

Lemma GetBattlePet_events id level breedId qualityId w :
  fetching ("battlePet/stats/" +:+ Itoa id) w
           (GetBattlePet id level breedId qualityId w).2.
Proof.
  unfold GetBattlePet. rewrite new_map_bind, bind_pure_state.
  exact (getWithParams_events _ _ (mkWorld _ (maps w ++ [_]) _)).
Qed.

Lemma GetChallenges_events realm w :
  fetching ("challenge/" +:+ (if String.eqb realm "" then "region" else realm))
           w (GetChallenges realm w).2.
Proof. unfold GetChallenges. apply fetching_get. Qed.

Lemma GetCharacterWithFields_events realm characterName fields w :
  fetching ("character/" +:+ realm +:+ "/" +:+ characterName)
           w (GetCharacterWithFields realm characterName fields w).2.
Proof.
  unfold GetCharacterWithFields.
  destruct (validateCharacterFields fields) as [err|].
  - apply fetching_nothing.
  - rewrite new_map_bind, bind_pure_state.
    exact (getWithParams_events _ _ (mkWorld _ (maps w ++ [_]) _)).
Qed.

(** Every call that fetches is a fetch of some resource. *)
Lemma invoke_fetching c w :
  fetches c = true → ∃ path, fetching path w (invoke c w).2.
Proof.
  destruct c; simpl; intros Hf; try discriminate; eexists.
  - apply fetching_get.
  - apply fetching_get.
  - apply fetching_get.
  - apply fetching_get.
  - apply GetBattlePet_events.
  - apply GetBattlePet_events.
  - apply GetChallenges_events.
  - apply GetChallenges_events.
  - apply GetCharacterWithFields_events.
  - apply GetCharacterWithFields_events.
  - apply get_events.
  - apply getWithParams_events.
Qed.

(** No call changes a field of the receiver. *)
Lemma invoke_receiver c w : receiver (invoke c w).2 = receiver w.
Proof.
  destruct (fetches c) eqn:Hf.
  - by destruct (invoke_fetching c w Hf) as (path & Hrec & _).
  - destruct c; try discriminate; simpl.
    + destruct queryParamPairs as [l|]; [|by rewrite url_nil].
      destruct (maps w !! l) as [entries|] eqn:Hl.
      * by rewrite (url_live _ _ _ _ Hl).
      * by rewrite url_dangling.
    + done.
    + rewrite signature_run. by destruct (hmac_Write _ _).
Qed.

Lemma session_receiver calls w : receiver (session calls w) = receiver w.
Proof.
  revert w. induction calls as [|c rest IH]; intros w; simpl; [done|].
  by rewrite IH, invoke_receiver.
Qed.

(** *** Requests, paths and the receiver *)

(** The header of every request of a fetch, by the branch taken. *)
Lemma fetching_headers path w w' :
  fetching path w w' →
  ∃ evs, added w w' evs ∧
    (Secret (receiver w) = "" → ClockRead ∉ evs) ∧
    ∀ request, Sent request ∈ evs →
      (http.Method request = "GET" ∧
       ∃ u, net_url.Scheme u = "http" ∧
            net_url.Host u = Host (receiver w) ∧
            net_url.Path u = "/api/wow/" +:+ path ∧
            parsed "GET" u = Ok (http.URL request)) ∧
      http.Header request =
        if decide (Secret (receiver w) = "") then []
        else [("Authorization", authorizationOf (receiver w) "aGk=")].
Proof.
  intros (_ & evs & Hadd & Hev). exists evs. split; [done|].
  rewrite Forall_forall in Hev. split.
  - intros He Hin. by apply Hev in Hin.
  - intros request Hin. apply Hev in Hin. simpl in Hin. tauto.
Qed.

(** [getWithParams] on a map of the heap, by what the libraries
    answer: the URL it builds, the request it hands over, the instant
    of the round trip and the events. *)
Lemma getWithParams_run path l entries w :
  maps w !! l = Some entries →
  let a := receiver w in
  let u := builtURL a path
             (range_order (length (trace w))
                (<["locale" := Locale a]> entries)) in
  let r := getWithParams path (Some l) w in
  match parsed "GET" u with
  | Err err => r.1 = Done ("", Some err) ∧ added w r.2 [Ranged]
  | Ok u' =>
      let request := http.mkRequest "GET" u' (headersOf a) in
      let answer := Done (readBody (round_trip (doInstant w) request)) in
      if decide (Secret a = "") then
        r.1 = answer ∧ added w r.2 [Ranged; Sent request]
      else
        match hmac_Write (Secret a)
                (Strings.Join ["GET"; now (length (trace w) + 2);
                               "/api/wow/" +:+ path; ""] Strings.newline) with
        | Some err =>
            r.1 = Panicked (Error err) ∧
            added w r.2 [Ranged; Ranged; ClockRead]
        | None =>
            r.1 = answer ∧
            added w r.2 [Ranged; Ranged; ClockRead; Sent request]
        end
  end.
Proof.
  intros Hl. simpl. rewrite (getWithParams_live _ _ _ _ Hl).
  unfold builtURL, headersOf, doInstant, added.
  rewrite appendPairs_map, app_nil_l.
  change (map (λ kv : string * string, kv.1 +:+ "=" +:+ kv.2))
    with (map queryItem).
  destruct (parsed _ _) as [u'|err]; [|done].
  rewrite !length_app. simpl.
  destruct (decide (Secret (receiver w) = "")); [done|].
  by destruct (hmac_Write _ _).
Qed.

(** The same for [get], whose map is fresh and holds the locale only. *)
Lemma get_run path w :
  let a := receiver w in
  let u := builtURL a path
             (range_order (length (trace w)) (<["locale" := Locale a]> ∅)) in
  let r := get path w in
  match parsed "GET" u with
  | Err err => r.1 = Done ("", Some err) ∧ added w r.2 [Ranged]
  | Ok u' =>
      let request := http.mkRequest "GET" u' (headersOf a) in
      let answer := Done (readBody (round_trip (doInstant w) request)) in
      if decide (Secret a = "") then
        r.1 = answer ∧ added w r.2 [Ranged; Sent request]
      else
        match hmac_Write (Secret a)
                (Strings.Join ["GET"; now (length (trace w) + 2);
                               "/api/wow/" +:+ path; ""] Strings.newline) with
        | Some err =>
            r.1 = Panicked (Error err) ∧
            added w r.2 [Ranged; Ranged; ClockRead]
        | None =>
            r.1 = answer ∧
            added w r.2 [Ranged; Ranged; ClockRead; Sent request]
        end
  end.
Proof.
  exact (getWithParams_run path (length (maps w)) ∅
           (mkWorld (receiver w) (maps w ++ [∅]) (trace w))
           (fresh_lookup _ _)).
Qed.

(** Every request of a client with a non-empty secret carries exactly
    one header, Authorization, whose value is a space, then BNET, a
    space, the public key, a colon and the signature; the requests of
    a client with an empty secret carry no header. *)
Lemma headers_by_secret (c : call) (w : World) :
  fetches c = true →
  ∃ evs, added w (invoke c w).2 evs ∧
    ∀ request, Sent request ∈ evs →
      (Secret (receiver w) ≠ "" →
       http.Header request =
         [("Authorization",
           " BNET " +:+ PublicKey (receiver w) +:+ ":" +:+ "aGk=")] ∧
       http.Header_Get request "Authorization" ≠
         Some ("BNET " +:+ PublicKey (receiver w) +:+ ":" +:+ "aGk=")) ∧
      (Secret (receiver w) = "" →
       http.Header request = [] ∧
       http.Header_Get request "Authorization" = None).
Proof.
  intros (path & Hf)%(invoke_fetching c w).
  destruct (fetching_headers _ _ _ Hf) as (evs & Hadd & _ & Hev).
  exists evs. split; [done|]. intros request [_ Hhd]%Hev. split.
  - intros Hne. rewrite decide_False in Hhd by done.
    unfold http.Header_Get. rewrite Hhd. split; [done|].
    by rewrite filter_cons_True, filter_nil.
  - intros He. rewrite decide_True in Hhd by done.
    unfold http.Header_Get. by rewrite Hhd.
Qed.

(** C4. [GetChallenges] with the empty realm builds a URL whose path
    ends in /challenge/region, and with a non-empty realm one whose
    path ends in /challenge/ followed by the realm. That URL is the
    one it hands to [http.NewRequest]: every request of the call is
    made from it, and whenever [http.NewRequest] accepts it the call
    hands the request made from it to [client.Do]. *)
Theorem GetChallenges_path (realm : string) (w : World) :
  let a := receiver w in
  let segment := if String.eqb realm "" then "region" else realm in
  let u := builtURL a ("challenge/" +:+ segment)
             (range_order (length (trace w)) (<["locale" := Locale a]> ∅)) in
  (realm = "" →
   net_url.Path u = "/api/wow/challenge/region" ∧
   Strings.ends_with "/challenge/region" (net_url.Path u)) ∧
  (realm ≠ "" →
   net_url.Path u = "/api/wow/challenge/" +:+ realm ∧
   Strings.ends_with ("/challenge/" +:+ realm) (net_url.Path u)) ∧
  ∃ evs, added w (GetChallenges realm w).2 evs ∧
    (∀ request, Sent request ∈ evs →
       http.Method request = "GET" ∧
       parsed "GET" u = Ok (http.URL request)) ∧
    (∀ u', parsed "GET" u = Ok u' →
       (∀ key p, hmac_Write key p = None) →
       Sent (http.mkRequest "GET" u' (headersOf a)) ∈ evs).
Proof.
  simpl. split_and!.
  - intros ->. split; [done|]. by exists "/api/wow".
  - intros Hne. destruct (String.eqb_spec realm "") as [?|_]; [done|].
    split; [done|]. by exists "/api/wow".
  - unfold GetChallenges. rewrite bind_pure_state.
    pose proof (get_run
      ("challenge/" +:+ (if String.eqb realm "" then "region" else realm)) w)
      as Hrun. simpl in Hrun.
    destruct (parsed _ _) as [u'|err].
    + destruct (decide (Secret (receiver w) = "")).
      * destruct Hrun as [_ Hadd]. eexists. split; [exact Hadd|]. split.
        -- intros request Hin. list_cases Hin; by simplify_eq.
        -- intros ? [= <-] _. list_mem.
      * destruct (hmac_Write _ _) eqn:Hmac.
        -- destruct Hrun as [_ Hadd]. eexists. split; [exact Hadd|]. split.
           ++ intros request Hin. list_cases Hin; by simplify_eq.
           ++ intros ? _ Hall. by rewrite Hall in Hmac.
        -- destruct Hrun as [_ Hadd]. eexists. split; [exact Hadd|]. split.
           ++ intros request Hin. list_cases Hin; by simplify_eq.
           ++ intros ? [= <-] _. list_mem.
    + destruct Hrun as [_ Hadd]. eexists. split; [exact Hadd|]. split.
      * intros request Hin. list_cases Hin; by simplify_eq.
      * by intros ? [=].
Qed.

(** C8. For every path and every map of the caller, [url] sets the
    locale key of that very map to the client's locale, whatever the
    key held before, and leaves every other entry, every other map
    and the client as they were; the query it serializes joins the
    entries of the updated map, so it contains locale= followed by
    the client's locale. *)
Theorem url_sets_locale (path : string) (l : nat)
    (entries : gmap string string) (w : World) :
  maps w !! l = Some entries →
  (∀ n m, range_order n m ≡ₚ map_to_list m) →
  let a := receiver w in
  ∃ u w' entries' order,
    url path (Some l) w = (Done u, w') ∧
    maps w' !! l = Some entries' ∧
    entries' = <["locale" := Locale a]> entries ∧
    entries' !! "locale" = Some (Locale a) ∧
    (∀ key, key ≠ "locale" → entries' !! key = entries !! key) ∧
    (∀ l', l' ≠ l → maps w' !! l' = maps w !! l') ∧
    receiver w' = a ∧
    order ≡ₚ map_to_list entries' ∧
    net_url.RawQuery u =
      Strings.Join (map (λ kv, kv.1 +:+ "=" +:+ kv.2) order) "&" ∧
    Strings.occurs_in ("locale=" +:+ Locale a) (net_url.RawQuery u).
Proof.
  intros Hl Hperm a. rewrite (url_live _ _ _ _ Hl). fold a.
  eexists _, _, _, (range_order (length (trace w)) _).
  split; [done|]. simpl. rewrite appendPairs_map, app_nil_l.
  split_and!; try done.
  - apply list_lookup_insert_eq. by eapply lookup_lt_Some.
  - apply lookup_insert_eq.
  - intros key Hkey. by apply lookup_insert_ne.
  - intros l' Hl'. by apply list_lookup_insert_ne.
  - apply StringFacts.Join_occurs.
    apply (list_elem_of_fmap_2 (λ kv : string * string, kv.1 +:+ "=" +:+ kv.2)
             _ ("locale", Locale a)).
    rewrite Hperm. apply elem_of_map_to_list, lookup_insert_eq.
Qed.

(** C9. The client of a successful construction has a locale from
    the list of valid locales of its region, and every call, and so
    every session of calls, leaves each field of the client as it
    was: the locale stays valid. *)
Theorem locale_invariant (region locale : string) (a : ApiClient) :
  NewApiClient region locale = Done (Ok a) →
  localeValid region a ∧
  (∀ (c : call) (w : World), receiver w = a →
     receiver (invoke c w).2 = a) ∧
  (∀ (calls : list call) (w : World), receiver w = a →
     receiver (session calls w) = a ∧
     localeValid region (receiver (session calls w))).
Proof.
  intros (locales & Hsw & Hin & _)%NewApiClient_Ok.
  assert (localeValid region a) as Hvalid by by exists locales.
  split; [done|]. split.
  - intros c w <-. apply invoke_receiver.
  - intros calls w <-. by rewrite session_receiver.
Qed.

(** [signature] reads the clock whenever it runs. *)
Lemma signature_reads_clock verb path w :
  ∃ evs, added w (signature verb path w).2 evs ∧ ClockRead ∈ evs.
Proof.
  exists [Ranged; ClockRead]. split; [|list_mem].
  rewrite signature_run. by destruct (hmac_Write _ _).
Qed.

(** C10. The client the constructor returns has an empty secret and
    an empty public key, so every fetch through it takes the branch
    without authentication: its requests carry no Authorization
    header and [signature], which reads the clock whenever it runs,
    is not run. *)
Theorem constructed_client_unauthenticated (region locale : string)
    (a : ApiClient) :
  NewApiClient region locale = Done (Ok a) →
  Secret a = "" ∧ PublicKey a = "" ∧
  (∀ (c : call) (w : World), fetches c = true → receiver w = a →
     ∃ evs, added w (invoke c w).2 evs ∧
       (ClockRead ∉ evs) ∧
       ∀ request, Sent request ∈ evs →
         http.Header request = [] ∧
         http.Header_Get request "Authorization" = None) ∧
  (∀ verb path w,
     ∃ evs, added w (signature verb path w).2 evs ∧ ClockRead ∈ evs).
Proof.
  intros (locales & _ & _ & Hsecret & Hkey)%NewApiClient_Ok.
  split; [done|]. split; [done|]. split; [|apply signature_reads_clock].
  intros c w Hf <-.
  destruct (invoke_fetching c w Hf) as (path & Hfetch).
  destruct (fetching_headers _ _ _ Hfetch) as (evs & Hadd & Hclock & Hev).
  exists evs. split; [done|]. split; [by apply Hclock|].
  intros request [_ Hhd]%Hev. rewrite decide_True in Hhd by done.
  unfold http.Header_Get. by rewrite Hhd.
Qed.

End MethodFacts.

(** ** Sample runs *)

(** In memory the Authorization value has a leading space, which is
    gone when the header is written. A client with the secret s3cret
    and the public key pk fetches achievement 2144: the one request it
    hands over carries the value " BNET pk:aGk=", and goes out with
    the value "BNET pk:aGk=". *)
Example keyed_request_header :
  let w := Sample.start Sample.keyed in
  let w' := (@GetAchievement Sample.runtime Sample.records 2144 w).2 in
  Sample.requests (trace w') =
    [ http.mkRequest "GET"
        (net_url.mkURL "http" "us.battle.net" "/api/wow/achievement/2144"
                       "locale=en_US")
        [("Authorization", " BNET pk:aGk=")] ] ∧
  http.written <$> Sample.requests (trace w') =
    [Some [("Authorization", "BNET pk:aGk=")]].
Proof. vm_compute. split; reflexivity. Qed.

(** What [http.NewRequest] makes of the URL is what the request
    carries: with a fragment sign in the locale, the query built is
    locale=en#GB and the query of the request is locale=en. *)
Example reparsed_query :
  let a := mkApiClient "eu.battle.net" "en#GB" "" "" in
  let w' := (@GetAchievement Faulty.cutting Sample.records 2144
               (Sample.start a)).2 in
  (λ request, net_url.RawQuery (http.URL request))
    <$> Sample.requests (trace w') = ["locale=en"].
Proof. vm_compute. reflexivity. Qed.

(** C2. The signature is the fixed text aGk=, the base64 encoding of
    hi, and nothing of the HMAC: two runs of [signature], on any two
    verbs, paths, clients (so any two secrets) and runtimes (so any two
    clocks), return the same string whenever they return, and they
    return whenever [mac.Write] reports no error. *)
Theorem signature_fixed (R1 R2 : Runtime) (verb1 path1 verb2 path2 : string)
    (w1 w2 : World) :
  let r1 := (@signature R1 verb1 path1 w1).1 in
  let r2 := (@signature R2 verb2 path2 w2).1 in
  (∀ s1 s2, r1 = Done s1 → r2 = Done s2 →
     s1 = s2 ∧ s1 = base64.EncodeToString "hi" ∧ s1 = "aGk=") ∧
  ((∀ key p, @hmac_Write R1 key p = None) →
   (∀ key p, @hmac_Write R2 key p = None) →
   r1 = Done "aGk=" ∧ r2 = Done "aGk=").
Proof.
  simpl. rewrite !signature_run. split.
  - intros s1 s2.
    destruct (hmac_Write _ _); [done|]. destruct (hmac_Write _ _); [done|].
    by intros [= <-] [= <-].
  - intros Hmac1 Hmac2. by rewrite Hmac1, Hmac2.
Qed.

Lemma signature_fixed_witness :
  (@signature Sample.runtime "GET" "achievement/2144"
     (Sample.start Sample.keyed)).1 = Done "aGk=" ∧
  (@signature Sample.runtime "POST" "character/Medivh/Thrall"
     (mkWorld (mkApiClient "kr.battle.net" "ko_KR" "other" "key2")
              [∅] [ClockRead])).1 = Done "aGk=".
Proof.
  apply (signature_fixed Sample.runtime Sample.runtime
           "GET" "achievement/2144" "POST" "character/Medivh/Thrall").
  - reflexivity.
  - reflexivity.
Defined.

Lemma GetChallenges_path_witness :
  let w := Sample.start Sample.anonymous in
  let u := net_url.mkURL "http" "eu.battle.net" "/api/wow/challenge/region"
                         "locale=en_GB" in
  Strings.ends_with "/challenge/region" (net_url.Path u) ∧
  ∃ evs,
    added w (@GetChallenges Sample.runtime Sample.records "" w).2 evs ∧
    Sent (http.mkRequest "GET" u []) ∈ evs.
Proof.
  intros w u.
  destruct (@GetChallenges_path Sample.runtime Sample.records "" w)
    as (Hempty & _ & evs & Hadd & _ & Hsent).
  split; [apply Hempty; reflexivity|].
  exists evs. split; [exact Hadd|].
  apply (Hsent u); reflexivity.
Defined.

Lemma url_sets_locale_witness :
  let entries : gmap string string :=
    <["fields" := "guild"]> (<["locale" := "fr_FR"]> ∅) in
  let w := mkWorld Sample.anonymous [entries] [] in
  ∃ u w' entries' order,
    @url Sample.runtime "character/Medivh/Thrall" (Some 0%nat) w = (Done u, w') ∧
    maps w' !! 0%nat = Some entries' ∧
    entries' = <["locale" := "en_GB"]> entries ∧
    entries' !! "locale" = Some "en_GB" ∧
    (∀ key, key ≠ "locale" → entries' !! key = entries !! key) ∧
    (∀ l', l' ≠ 0%nat → maps w' !! l' = maps w !! l') ∧
    receiver w' = Sample.anonymous ∧
    order ≡ₚ map_to_list entries' ∧
    net_url.RawQuery u =
      Strings.Join (map (λ kv, kv.1 +:+ "=" +:+ kv.2) order) "&" ∧
    Strings.occurs_in "locale=en_GB" (net_url.RawQuery u).
Proof.
  intros entries w.
  apply (@url_sets_locale Sample.runtime "character/Medivh/Thrall" 0%nat
           entries w).
  - reflexivity.
  - intros n m. reflexivity.
Defined.

Lemma locale_invariant_witness :
  localeValid "EU" Sample.anonymous ∧
  receiver (@session Sample.runtime Sample.records
              [Call_GetAchievement 2144; Call_GetChallenges "";
               Call_signature "GET" "x"]
              (Sample.start Sample.anonymous)) = Sample.anonymous.
Proof.
  destruct (@locale_invariant Sample.runtime Sample.records
              "EU" "" Sample.anonymous) as (Hvalid & _ & Hsession);
    [reflexivity|].
  split; [exact Hvalid|].
  apply (Hsession _ (Sample.start Sample.anonymous)). reflexivity.
Defined.

Lemma constructed_client_unauthenticated_witness :
  Secret Sample.anonymous = "" ∧ PublicKey Sample.anonymous = "" ∧
  ∃ evs,
    added (Sample.start Sample.anonymous)
          (@invoke Sample.runtime Sample.records
             (Call_GetCharacterWithFields "Medivh" "Thrall" ["guild"; "pvp"])
             (Sample.start Sample.anonymous)).2 evs ∧
    (ClockRead ∉ evs) ∧
    ∀ request, Sent request ∈ evs →
      http.Header request = [] ∧
      http.Header_Get request "Authorization" = None.
Proof.
  destruct (@constructed_client_unauthenticated Sample.runtime Sample.records
              "EU" "" Sample.anonymous) as (Hsecret & Hkey & Hfetch & _);
    [reflexivity|].
  split; [exact Hsecret|]. split; [exact Hkey|].
  apply Hfetch; reflexivity.
Defined.

(** * Further facts *)

(** ** Construction *)

(** X1. A region identifier that is no label of the switch makes
    construction fail with the region error, whatever the locale. *)
Theorem NewApiClient_invalid_region (region locale : string) :
  ¬ supportedRegion region →
  NewApiClient region locale =
  Done (Err (errors_New ("Region '" +:+ region +:+ "' is not valid"))).
Proof.
  intros Hno. unfold NewApiClient.
  destruct (regionSwitch region) as [[host locales]|] eqn:Hsw; [|done].
  destruct Hno. apply regionSwitch_supported. by eexists.
Qed.

Lemma NewApiClient_invalid_region_witness :
  NewApiClient "us" "en_US" =
  Done (Err (errors_New "Region 'us' is not valid")).
Proof.
  apply (NewApiClient_invalid_region "us" "en_US").
  intros Hsup%supportedRegion_cases. list_cases Hsup; discriminate.
Defined.

(** X2. For a supported region, construction succeeds exactly when the
    locale is empty or is one of the region's locales; the client then
    has the region's host, the first locale of the list for the empty
    locale and the given locale otherwise, and no key pair. *)
Theorem NewApiClient_succeeds_iff (region locale host : string)
    (locales : list string) (a : ApiClient) :
  regionSwitch region = Some (host, locales) →
  NewApiClient region locale = Done (Ok a) ↔
  (locale = "" ∧ head locales = Some (Locale a) ∨
   locale ≠ "" ∧ locale ∈ locales ∧ Locale a = locale) ∧
  Host a = host ∧ Secret a = "" ∧ PublicKey a = "".
Proof.
  intros Hsw. unfold NewApiClient. rewrite Hsw.
  destruct (regionSwitch_first _ _ _ Hsw) as [first Hfirst].
  destruct locales as [|first' rest]; [done|]. simpl in Hfirst.
  injection Hfirst as ->.
  destruct (String.eqb_spec locale "") as [->|Hne].
  - simpl. split.
    + intros [= <-]. simpl. split_and!; try done. by left.
    + intros ([(_ & [= Hl])|(? & _)] & Hh & Hs & Hk); [|done].
      destruct a; simpl in *. by subst.
  - destruct (scanLocales host locale (first :: rest)) as [a'|] eqn:Hscan.
    + apply scanLocales_Some in Hscan as [-> Hin]. split.
      * intros [= <-]. simpl. split_and!; try done. by right.
      * intros ([(? & _)|(_ & _ & Hl)] & Hh & Hs & Hk); [done|].
        destruct a; simpl in *. by subst.
    + apply scanLocales_None in Hscan. split; [done|].
      intros ([(? & _)|(_ & Hin & _)] & _); done.
Qed.

Lemma NewApiClient_succeeds_iff_witness :
  NewApiClient "US" "pt_BR" =
  Done (Ok (mkApiClient "us.battle.net" "pt_BR" "" "")).
Proof.
  apply (NewApiClient_succeeds_iff "US" "pt_BR" "us.battle.net"
           ["en_US"; "es_MX"; "pt_BR"]); [reflexivity|].
  simpl. split_and!; try reflexivity.
  right. split_and!; [discriminate | list_mem | reflexivity].
Defined.

(** X3. Construction never panics: the list of locales it indexes at 0
    is never empty, so every call returns a client or an error. *)
Theorem NewApiClient_returns (region locale : string) :
  ∃ r, NewApiClient region locale = Done r.
Proof.
  unfold NewApiClient.
  destruct (regionSwitch region) as [[host locales]|] eqn:Hsw; [|by eexists].
  destruct (regionSwitch_first _ _ _ Hsw) as [first ->].
  destruct (String.eqb locale ""); [by eexists|].
  destruct (scanLocales host locale locales); by eexists.
Qed.

(** Two identifiers with the same host are labels of one clause. *)
Lemma regionSwitch_host r1 r2 host locales1 locales2 :
  regionSwitch r1 = Some (host, locales1) →
  regionSwitch r2 = Some (host, locales2) →
  alias r1 r2 ∧ locales1 = locales2.
Proof.
  intros H1 H2.
  assert (supportedRegion r1) as Hs1 by (apply regionSwitch_supported; by eexists).
  assert (supportedRegion r2) as Hs2 by (apply regionSwitch_supported; by eexists).
  apply supportedRegion_cases in Hs1. apply supportedRegion_cases in Hs2.
  list_cases Hs1; list_cases Hs2; vm_compute in H1, H2;
    simplify_eq; (split; [|done]);
    first [ exists ["US"; "United States"]; split_and!; list_mem
          | exists ["EU"; "Europe"]; split_and!; list_mem
          | exists ["KR"; "Korea"]; split_and!; list_mem
          | exists ["TW"; "Taiwan"]; split_and!; list_mem
          | exists ["ZH"; "CN"; "China"]; split_and!; list_mem ].
Qed.

(** X4. The host tells the region: two clients constructed with the
    same host were constructed from aliases of one region, and the
    locale of each is valid for the region of the other. *)
Theorem Host_determines_region (r1 l1 r2 l2 : string) (a1 a2 : ApiClient) :
  NewApiClient r1 l1 = Done (Ok a1) →
  NewApiClient r2 l2 = Done (Ok a2) →
  Host a1 = Host a2 →
  alias r1 r2 ∧ localeValid r2 a1 ∧ localeValid r1 a2.
Proof.
  intros (ls1 & Hsw1 & Hin1 & _)%NewApiClient_Ok
         (ls2 & Hsw2 & Hin2 & _)%NewApiClient_Ok Hhost.
  rewrite Hhost in Hsw1.
  destruct (regionSwitch_host _ _ _ _ _ Hsw1 Hsw2) as [Halias ->].
  split; [done|]. split.
  - exists ls2. split; [by rewrite Hhost | done].
  - by exists ls2.
Qed.

Lemma Host_determines_region_witness :
  alias "CN" "China" ∧
  localeValid "China" (mkApiClient "www.battle.com.cn" "zh_CN" "" "") ∧
  localeValid "CN" (mkApiClient "www.battle.com.cn" "zh_CN" "" "").
Proof.
  apply (Host_determines_region "CN" "" "China" "zh_CN"); reflexivity.
Defined.

(** ** The validator on concatenated and reordered lists *)

Lemma validateCharacterFields_None (fields : list string) :
  validateCharacterFields fields = None ↔
  Forall (λ f, f ∈ characterFields) fields.
Proof.
  unfold validateCharacterFields. rewrite collectBad_filter, app_nil_l.
  rewrite Forall_forall. split.
  - intros Hv f Hin. destruct (decide (f ∈ characterFields)) as [|Hbad]; [done|].
    assert (f ∈ filter (λ f, f ∉ characterFields) fields) as Hf
      by by apply list_elem_of_filter.
    destruct (filter (λ f, f ∉ characterFields) fields); [|done].
    by apply elem_of_nil in Hf.
  - intros Hall.
    assert (filter (λ f, f ∉ characterFields) fields = []) as ->; [|done].
    apply elem_of_nil_inv. intros f [Hbad Hin]%list_elem_of_filter.
    by apply Hbad, Hall.
Qed.

(** X5. The validator accepts a concatenation exactly when it accepts
    both parts, its verdict does not depend on the order of the names,
    and the names it reports for a concatenation are those of the first
    part followed by those of the second. *)
Theorem validateCharacterFields_app (xs ys : list string) :
  (validateCharacterFields (xs ++ ys) = None ↔
   validateCharacterFields xs = None ∧ validateCharacterFields ys = None) ∧
  (∀ zs, zs ≡ₚ xs →
     validateCharacterFields zs = None ↔ validateCharacterFields xs = None) ∧
  collectBad [] (xs ++ ys) = collectBad [] xs ++ collectBad [] ys.
Proof.
  split_and!.
  - rewrite !validateCharacterFields_None. apply Forall_app.
  - intros zs Hperm. rewrite !validateCharacterFields_None. by rewrite Hperm.
  - rewrite !collectBad_filter, !app_nil_l. apply filter_app.
Qed.

(** ** Whole calls *)

Section CallFacts.

Context `{Runtime, Records}.

Ltac run :=
  unfold mbind, M_bind, bind, mret, M_ret, ret, panic, handleError,
         self, new_map, map_assign, map_range, time_Now_String, client_Do;
  simpl.

(** What a fetch on a map of the heap adds to the trace. *)
Lemma getWithParams_shape path l entries w :
  maps w !! l = Some entries →
  let a := receiver w in
  let u := builtURL a path
             (range_order (length (trace w))
                (<["locale" := Locale a]> entries)) in
  ∃ evs, added w (getWithParams path (Some l) w).2 evs ∧
    (evs = [Ranged] ∨ evs = [Ranged; Ranged; ClockRead] ∨
     ∃ u', parsed "GET" u = Ok u' ∧
       (evs = [Ranged; Sent (http.mkRequest "GET" u' (headersOf a))] ∨
        evs = [Ranged; Ranged; ClockRead;
               Sent (http.mkRequest "GET" u' (headersOf a))])).
Proof.
  intros Hl. pose proof (getWithParams_run path _ _ _ Hl) as Hrun.
  simpl in *. destruct (parsed _ _) as [u'|err].
  - destruct (decide _).
    + destruct Hrun as [_ Hadd]. eexists. split; [exact Hadd|]. eauto 6.
    + destruct (hmac_Write _ _); destruct Hrun as [_ Hadd];
        (eexists; split; [exact Hadd|]); eauto 6.
  - destruct Hrun as [_ Hadd]. eexists. split; [exact Hadd|]. eauto.
Qed.

(** The same for any map value: a nil map adds nothing. *)
Lemma getWithParams_shape_any path m w :
  ∃ evs, added w (getWithParams path m w).2 evs ∧
    (evs = [] ∨ evs = [Ranged] ∨ (∃ request, evs = [Ranged; Sent request]) ∨
     evs = [Ranged; Ranged; ClockRead] ∨
     ∃ request, evs = [Ranged; Ranged; ClockRead; Sent request]).
Proof.
  destruct (match m with None => None | Some l => maps w !! l end)
    as [entries|] eqn:Hm.
  - destruct m as [l|]; [|done].
    destruct (getWithParams_shape path _ _ _ Hm) as (evs & Hadd & Hev).
    exists evs. split; [done|].
    destruct Hev as [-> | [-> | (u' & _ & [-> | ->])]]; eauto 10.
  - destruct (getWithParams_no_map path m w) as [reason ->]; [by destruct m|].
    exists []. split; [|by left]. unfold added. by rewrite app_nil_r.
Qed.

(** Every fetching call either stops before fetching, leaving the state
    as it is, or ends in the state of [getWithParams] on its resource,
    started with the same receiver and trace and with the maps of the
    caller still in place. *)
Lemma invoke_reduces c w :
  fetches c = true →
  (invoke c w).2 = w ∨
  ∃ path m w0,
    resource c = Some path ∧ receiver w0 = receiver w ∧
    trace w0 = trace w ∧
    (∀ l entries, maps w !! l = Some entries → maps w0 !! l = Some entries) ∧
    (invoke c w).2 = (getWithParams path m w0).2.
Proof.
  assert (∀ init l entries,
            maps w !! l = Some entries →
            (maps w ++ [init]) !! l = Some entries) as Hext.
  { intros init l entries Hl. by apply lookup_app_l_Some. }
  intros Hf. destruct c; try discriminate; simpl.
  1-4, 7-8, 11:
    right; eexists _, _, (mkWorld (receiver w) (maps w ++ [∅]) (trace w));
    unfold GetAchievement, GetAuctionData, GetBattlePetAbility,
           GetBattlePetSpecies, GetChallenge, GetChallenges;
    rewrite ?bind_pure_state; unfold get; rewrite new_map_bind;
    split_and!; try done; apply Hext.
  - right. eexists _, _, (mkWorld (receiver w) (maps w ++ [_]) (trace w)).
    unfold GetBattlePet. rewrite new_map_bind, bind_pure_state. split_and!; try done; apply Hext.
  - right. eexists _, _, (mkWorld (receiver w) (maps w ++ [_]) (trace w)).
    unfold GetBattlePetStats, GetBattlePet.
    rewrite new_map_bind, bind_pure_state. split_and!; try done; apply Hext.
  - unfold GetCharacter, GetCharacterWithFields.
    destruct (validateCharacterFields []); [by left|].
    right. eexists _, _, (mkWorld (receiver w) (maps w ++ [_]) (trace w)).
    rewrite new_map_bind, bind_pure_state. split_and!; try done; apply Hext.
  - unfold GetCharacterWithFields.
    destruct (validateCharacterFields fields); [by left|].
    right. eexists _, _, (mkWorld (receiver w) (maps w ++ [_]) (trace w)).
    rewrite new_map_bind, bind_pure_state. split_and!; try done; apply Hext.
  - right. by eexists _, _, w.
Qed.

Lemma requestsOf_length_shape evs :
  (evs = [] ∨ evs = [Ranged] ∨ (∃ request, evs = [Ranged; Sent request]) ∨
   evs = [Ranged; Ranged; ClockRead] ∨
   ∃ request, evs = [Ranged; Ranged; ClockRead; Sent request]) →
  (length (requestsOf evs) ≤ 1)%nat.
Proof. intros [->|[->|[[? ->]|[->|[? ->]]]]]; simpl; lia. Qed.

Lemma invoke_requests (c : call) (w : World) :
  ∃ evs, added w (invoke c w).2 evs ∧ (length (requestsOf evs) ≤ 1)%nat.
Proof.
  destruct (fetches c) eqn:Hf.
  - destruct (invoke_reduces c w Hf) as [->|(path & m & w0 & _ & _ & Htr & _ & ->)].
    + exists []. split; [|simpl; lia]. unfold added. by rewrite app_nil_r.
    + destruct (getWithParams_shape_any path m w0) as (evs & Hadd & Hev).
      exists evs. split; [|by apply requestsOf_length_shape].
      unfold added in *. by rewrite <- Htr.
  - destruct c; try discriminate; simpl.
    + destruct queryParamPairs as [l|].
      * destruct (maps w !! l) as [entries|] eqn:Hl.
        -- rewrite (url_live _ _ _ _ Hl). exists [Ranged].
           split; [done | simpl; lia].
        -- rewrite url_dangling by done. exists []. split; [|simpl; lia].
           unfold added. by rewrite app_nil_r.
      * rewrite url_nil. exists []. split; [|simpl; lia].
        unfold added. by rewrite app_nil_r.
    + exists []. split; [|simpl; lia]. unfold added. simpl. by rewrite app_nil_r.
    + rewrite signature_run. exists [Ranged; ClockRead].
      split; [|simpl; lia]. by destruct (hmac_Write _ _).
Qed.

(** X11. No call calls [client.Do] more than once: on no path through
    any method is a request handed over a second time. *)
Theorem one_request_per_call (c : call) (w : World) :
  ∃ evs, added w (invoke c w).2 evs ∧ (length (requestsOf evs) ≤ 1)%nat.
Proof. apply invoke_requests. Qed.

(** X20. A session calls [client.Do] at most as many times as it has
    calls, and only adds to the trace. *)
Theorem session_requests (calls : list call) (w : World) :
  ∃ evs, added w (session calls w) evs ∧
         (length (requestsOf evs) ≤ length calls)%nat.
Proof.
  revert w. induction calls as [|c rest IH]; intros w; simpl.
  - exists []. split; [|done]. unfold added. by rewrite app_nil_r.
  - destruct (invoke_requests c w) as (evs1 & Hadd1 & Hlen1).
    destruct (IH (invoke c w).2) as (evs2 & Hadd2 & Hlen2).
    exists (evs1 ++ evs2). unfold added in *. split.
    + by rewrite Hadd2, Hadd1, app_assoc.
    + unfold requestsOf in *. rewrite omap_app, length_app. lia.
Qed.

(** *** Calls that make their own map *)

Lemma bind_mret_id {A} (m : M A) w : (x ← m; mret x) w = m w.
Proof. run. by destruct (m w) as [[a|reason] w']. Qed.

(** A call with a map of its own and valid field names is a fetch of
    its resource on the fresh map, followed by a pure step that keeps
    the error of the fetch. *)
Lemma own_map_decomposes c w :
  own_map c = true →
  Forall (λ f, f ∈ characterFields) (fieldsOf c) →
  ∃ path init (f : string * option error → returns c),
    resource c = Some path ∧
    invoke c w =
      (fetched ← getWithParams path (Some (length (maps w)));
       mret (f fetched))
        (mkWorld (receiver w) (maps w ++ [init]) (trace w)) ∧
    (∀ body err, errorOf c (f (body, Some err)) = Some err).
Proof.
  intros Hown Hvalid%validateCharacterFields_None.
  destruct c; try discriminate; simpl in *.
  1-4, 7-8: by eexists _, ∅, _.
  - by eexists _, _, _.
  - by eexists _, _, _.
  - unfold GetCharacter, GetCharacterWithFields. rewrite Hvalid.
    by eexists _, _, _.
  - unfold GetCharacterWithFields. rewrite Hvalid. by eexists _, _, _.
  - eexists _, ∅, id. split; [done|]. split; [|done].
    unfold get. rewrite new_map_bind. symmetry. apply bind_mret_id.
Qed.

Lemma bind_pure_value {A B} (m : M A) (f : A → B) w :
  ((x ← m; mret (f x)) w).1 =
  match (m w).1 with
  | Done a => Done (f a)
  | Panicked reason => Panicked reason
  end.
Proof. run. by destruct (m w) as [[a|reason] w']. Qed.

Lemma elem_of_requestsOf request evs :
  request ∈ requestsOf evs ↔ Sent request ∈ evs.
Proof.
  unfold requestsOf. rewrite list_elem_of_omap. split.
  - intros (e & Hin & He). destruct e; by simplify_eq.
  - intros Hin. by exists (Sent request).
Qed.

(** A fetch that returns a body and no error has handed a request to
    [client.Do]. *)
Lemma getWithParams_success path m w body :
  (getWithParams path m w).1 = Done (body, None) →
  ∃ evs request,
    added w (getWithParams path m w).2 evs ∧ Sent request ∈ evs.
Proof.
  destruct (match m with None => None | Some l => maps w !! l end)
    as [entries|] eqn:Hm; cycle 1.
  { destruct (getWithParams_no_map path m w) as [reason ->]; [by destruct m|].
    done. }
  destruct m as [l|]; [|done].
  pose proof (getWithParams_run path _ _ _ Hm) as Hrun. simpl in Hrun.
  destruct (parsed _ _).
  - destruct (decide _).
    + destruct Hrun as [_ Hadd]. intros _. eexists _, _.
      split; [exact Hadd | list_mem].
    + destruct (hmac_Write _ _); destruct Hrun as [-> Hadd]; [done|].
      intros _. eexists _, _. split; [exact Hadd | list_mem].
  - by destruct Hrun as [-> _].
Qed.

(** So has every fetching call that returns without an error. *)
Lemma success_hands_over c w r :
  fetches c = true →
  (invoke c w).1 = Done r →
  errorOf c r = None →
  ∃ evs request, added w (invoke c w).2 evs ∧ Sent request ∈ evs.
Proof.
  intros Hf. destruct (own_map c) eqn:Hown; cycle 1.
  { destruct c; try discriminate. simpl. destruct r as [body oerr]. simpl.
    intros Hr ->. by eapply getWithParams_success. }
  destruct (validateCharacterFields (fieldsOf c)) as [err|] eqn:Hv.
  { destruct c; try discriminate. simpl in Hv. simpl.
    unfold GetCharacterWithFields. rewrite Hv. by intros [= <-]. }
  apply validateCharacterFields_None in Hv.
  destruct (own_map_decomposes c w Hown Hv) as (path & init & f & _ & -> & Herr).
  rewrite bind_pure_value, bind_pure_state.
  destruct (getWithParams path _ _).1 as [[body [err|]]|reason] eqn:Hres;
    [|intros [= <-] _|done].
  - intros [= <-]. by rewrite Herr.
  - destruct (getWithParams_success _ _ _ _ Hres) as (evs & request & Hadd & Hin).
    by exists evs, request.
Qed.

Lemma success_requests c w evs r :
  fetches c = true →
  added w (invoke c w).2 evs →
  (invoke c w).1 = Done r →
  errorOf c r = None →
  ∃ request, request ∈ requestsOf evs.
Proof.
  intros Hf Hadd Hr Hok.
  destruct (success_hands_over c w r Hf Hr Hok) as (evs' & request & Hadd' & Hin).
  unfold added in *. rewrite Hadd in Hadd'.
  apply app_inv_head in Hadd' as <-. exists request.
  by apply elem_of_requestsOf.
Qed.

Lemma resource_fetches c path : resource c = Some path → fetches c = true.
Proof. by destruct c. Qed.

(** C1. Every request of a client with a non-empty secret goes out
    with one header line, Authorization, whose value is exactly BNET,
    a space, the public key, a colon and the signature: the value
    [authorizationString] makes starts with a space, which the writing
    of the header drops. (A public key with a control character makes
    the transport refuse the request, so that nothing goes out.) The
    requests of a client with an empty secret have no header. A call
    that returns without an error has handed such a request over. *)
Theorem authorization_written (c : call) (w : World) :
  fetches c = true →
  ∃ evs, added w (invoke c w).2 evs ∧
    (∀ request, Sent request ∈ evs →
       (Secret (receiver w) ≠ "" →
        http.written request =
          if http.ValidHeaderFieldValue (PublicKey (receiver w))
          then Some [("Authorization",
                      "BNET " +:+ PublicKey (receiver w) +:+ ":" +:+ "aGk=")]
          else None) ∧
       (Secret (receiver w) = "" →
        http.Header request = [] ∧ http.written request = Some [])) ∧
    (∀ r, (invoke c w).1 = Done r → errorOf c r = None →
       ∃ request, Sent request ∈ evs).
Proof.
  intros Hf. destruct (invoke_fetching c w Hf) as (path & Hfetch).
  destruct (fetching_headers _ _ _ Hfetch) as (evs & Hadd & _ & Hev).
  exists evs. split; [done|]. split.
  - intros request [_ Hhd]%Hev.
    destruct request as [method u header]. simpl in Hhd. subst header. split.
    + intros Hne. rewrite decide_False by done.
      apply HeaderFacts.written_authorization.
    + intros He. by rewrite decide_True.
  - intros r Hr Hok.
    destruct (success_hands_over c w r Hf Hr Hok) as (evs' & request & Hadd' & Hin).
    unfold added in *. rewrite Hadd in Hadd'.
    apply app_inv_head in Hadd' as <-. by exists request.
Qed.

(** Every call with a resource is a fetch of that resource. *)
Lemma resource_fetching c path w :
  resource c = Some path → fetching path w (invoke c w).2.
Proof.
  destruct c; simpl; intros [= <-].
  - apply fetching_get.
  - apply fetching_get.
  - apply fetching_get.
  - apply fetching_get.
  - apply GetBattlePet_events.
  - apply GetBattlePet_events.
  - apply GetChallenges_events.
  - apply GetChallenges_events.
  - apply GetCharacterWithFields_events.
  - apply GetCharacterWithFields_events.
  - apply get_events.
  - apply getWithParams_events.
Qed.

(** X15. Every request a call hands to [client.Do] is a GET that
    [http.NewRequest] made from a URL with the scheme http, the host
    of the client and the path /api/wow/ followed by the resource of
    the call: the decimal id, the realm or the names go into the path
    as they are. A call that returns without an error has handed
    such a request over. *)
Theorem request_shape (c : call) (path : string) (w : World) :
  resource c = Some path →
  ∃ evs, added w (invoke c w).2 evs ∧
    (∀ request, request ∈ requestsOf evs →
       http.Method request = "GET" ∧
       ∃ u, net_url.Scheme u = "http" ∧
            net_url.Host u = Host (receiver w) ∧
            net_url.Path u = "/api/wow/" +:+ path ∧
            parsed "GET" u = Ok (http.URL request)) ∧
    (∀ r, (invoke c w).1 = Done r → errorOf c r = None →
       ∃ request, request ∈ requestsOf evs).
Proof.
  intros Hres.
  destruct (resource_fetching c path w Hres) as (_ & evs & Hadd & Hev).
  exists evs. split; [done|]. split.
  - intros request Hin%elem_of_requestsOf.
    rewrite Forall_forall in Hev. apply Hev in Hin. simpl in Hin. tauto.
  - intros r. apply success_requests; [by eapply resource_fetches | done].
Qed.

(** The requests of a fetch on a map of the heap are made from the URL
    built from the entries of that map, the locale included. *)
Lemma getWithParams_requests path l entries w :
  maps w !! l = Some entries →
  ∃ evs, added w (getWithParams path (Some l) w).2 evs ∧
    ∀ request, request ∈ requestsOf evs →
      parsed "GET"
        (builtURL (receiver w) path
           (range_order (length (trace w))
              (<["locale" := Locale (receiver w)]> entries))) =
      Ok (http.URL request).
Proof.
  intros Hl. destruct (getWithParams_shape path _ _ _ Hl) as (evs & Hadd & Hev).
  exists evs. split; [done|]. intros request Hin%elem_of_requestsOf.
  destruct Hev as [-> | [-> | (u' & Hu' & [-> | ->])]];
    list_cases Hin; by simplify_eq.
Qed.

(** The calls through [get] end in the state of [get] on their
    resource, and return what it returns up to decoding. *)
Lemma via_get_state c w :
  via_get c = true →
  ∃ path, resource c = Some path ∧ (invoke c w).2 = (get path w).2.
Proof.
  destruct c; try discriminate; intros _; simpl; eexists; (split; [done|]);
    unfold GetAchievement, GetAuctionData, GetBattlePetAbility,
           GetBattlePetSpecies, GetChallenge, GetChallenges;
    by rewrite ?bind_pure_state.
Qed.

(** X8. With every entry of a map visited once, the URL a call
    through [get] hands to [http.NewRequest] is the one for its
    resource whose query is exactly locale= followed by the locale of
    the client, with no other parameter; every request of the call is
    what [http.NewRequest] made of that URL, and a call that returns
    without an error has handed one over. *)
Theorem get_query (c : call) (path : string) (w : World) :
  via_get c = true →
  resource c = Some path →
  (∀ n m, range_order n m ≡ₚ map_to_list m) →
  let u := builtURL (receiver w) path [("locale", Locale (receiver w))] in
  net_url.RawQuery u = "locale=" +:+ Locale (receiver w) ∧
  ∃ evs, added w (invoke c w).2 evs ∧
    (∀ request, request ∈ requestsOf evs →
       parsed "GET" u = Ok (http.URL request)) ∧
    (∀ r, (invoke c w).1 = Done r → errorOf c r = None →
       ∃ request, request ∈ requestsOf evs).
Proof.
  intros Hvia Hres Hperm. split; [done|].
  cut (∃ evs, added w (invoke c w).2 evs ∧
         ∀ request, request ∈ requestsOf evs →
           parsed "GET"
             (builtURL (receiver w) path [("locale", Locale (receiver w))]) =
           Ok (http.URL request)).
  { intros (evs & Hadd & Hev). exists evs. split; [done|]. split; [done|].
    intros r. apply success_requests; [by eapply resource_fetches | done]. }
  destruct (via_get_state c w Hvia) as (path' & Hres' & ->).
  assert (path' = path) as -> by congruence.
  unfold get. rewrite new_map_bind.
  destruct (getWithParams_requests path (length (maps w)) ∅
              (mkWorld (receiver w) (maps w ++ [∅]) (trace w)))
    as (evs & Hadd & Hev); [apply fresh_lookup|].
  exists evs. split; [done|]. intros request Hin.
  rewrite <- (Hev request Hin). simpl.
  specialize (Hperm (length (trace w))
                (<["locale" := Locale (receiver w)]> ∅)).
  rewrite insert_empty, map_to_list_singleton in Hperm.
  apply Permutation_singleton_r in Hperm. by rewrite insert_empty, Hperm.
Qed.



(** *** Validation, the nil map and panics *)

(** X6. Field names are checked before anything else happens: with a
    name outside the whitelist, [GetCharacterWithFields] returns the
    error of the validator and leaves the state exactly as it was, with
    no map made, no event and no request. *)
Theorem GetCharacterWithFields_rejects (realm characterName : string)
    (fields : list string) (w : World) :
  Exists (λ f, f ∉ characterFields) fields →
  ∃ err,
    validateCharacterFields fields = Some err ∧
    GetCharacterWithFields realm characterName fields w = (Done (Err err), w).
Proof.
  intros Hbad. unfold GetCharacterWithFields.
  destruct (validateCharacterFields fields) as [err|] eqn:Hv; [by exists err|].
  apply validateCharacterFields_None in Hv.
  apply Exists_exists in Hbad as (f & Hin & Hnot).
  rewrite Forall_forall in Hv. destruct Hnot. by apply Hv.
Qed.

(** X10. A nil map makes [url], and so [getWithParams], panic on the
    assignment of the locale, before any event: nothing is sent and the
    state is as before. *)
Theorem nil_map_panics (path : string) (w : World) :
  url path None w = (Panicked "assignment to entry in nil map", w) ∧
  getWithParams path None w =
    (Panicked "assignment to entry in nil map", w).
Proof. done. Qed.

(** A call through [get] is [get] on its resource followed by a pure
    step that keeps the error of the fetch. *)
Lemma via_get_decomposes c path :
  via_get c = true →
  resource c = Some path →
  ∃ f : string * option error → returns c,
    (∀ w, invoke c w = (fetched ← get path; mret (f fetched)) w) ∧
    (∀ body err, errorOf c (f (body, Some err)) = Some err).
Proof.
  destruct c; try discriminate; intros _ [= <-]; simpl.
  1-6: by eexists.
  exists id. split; [|done]. intros w. symmetry. apply bind_mret_id.
Qed.


(** X17. An error of the fetch is the error of the call, and the body
    is not decoded. When [http.NewRequest] rejects the URL built for
    the resource, a call through [get] returns that error and hands
    nothing to [client.Do]; when [client.Do] fails on the request made
    from that URL, the call returns that error after the one request it
    has handed over. *)
Theorem fetch_error_is_returned (c : call) (path : string) (w : World)
    (err : error) :
  via_get c = true →
  resource c = Some path →
  let a := receiver w in
  let u := builtURL a path
             (range_order (length (trace w)) (<["locale" := Locale a]> ∅)) in
  (parsed "GET" u = Err err →
   ∃ r, (invoke c w).1 = Done r ∧ errorOf c r = Some err ∧
        added w (invoke c w).2 [Ranged]) ∧
  (∀ u', parsed "GET" u = Ok u' →
     (∀ key p, hmac_Write key p = None) →
     round_trip (doInstant w) (http.mkRequest "GET" u' (headersOf a)) =
       Err err →
     ∃ r evs,
       (invoke c w).1 = Done r ∧ errorOf c r = Some err ∧
       added w (invoke c w).2 evs ∧
       requestsOf evs = [http.mkRequest "GET" u' (headersOf a)]).
Proof.
  intros Hvia Hres.
  destruct (via_get_decomposes c path Hvia Hres) as (f & Hinv & Herr).
  simpl. rewrite Hinv, bind_pure_value, bind_pure_state.
  pose proof (get_run path w) as Hrun. simpl in Hrun. split.
  - intros Hparsed. rewrite Hparsed in Hrun. destruct Hrun as [-> Hadd].
    eexists. by split_and!.
  - intros u' Hparsed Hmac Hnet. rewrite Hparsed in Hrun.
    destruct (decide _).
    + destruct Hrun as [-> Hadd]. rewrite Hnet. simpl.
      eexists _, _. by split_and!.
    + rewrite Hmac in Hrun. destruct Hrun as [-> Hadd]. rewrite Hnet. simpl.
      eexists _, _. by split_and!.
Qed.

(** *** The heap of maps *)

Lemma getWithParams_maps (path : string) (l : nat)
    (entries : gmap string string) (w : World) :
  maps w !! l = Some entries →
  let w' := (getWithParams path (Some l) w).2 in
  maps w' !! l = Some (<["locale" := Locale (receiver w)]> entries) ∧
  (∀ l' other, l' ≠ l → maps w !! l' = Some other →
     maps w' !! l' = Some other) ∧
  (length (maps w) ≤ length (maps w'))%nat.
Proof.
  intros Hl. simpl. rewrite (getWithParams_live _ _ _ _ Hl).
  assert (l < length (maps w))%nat as Hlt by by eapply lookup_lt_Some.
  assert (∀ more,
    (<[l := <["locale" := Locale (receiver w)]> entries]> (maps w) ++ more) !! l
      = Some (<["locale" := Locale (receiver w)]> entries) ∧
    (∀ l' other, l' ≠ l → maps w !! l' = Some other →
       (<[l := <["locale" := Locale (receiver w)]> entries]> (maps w) ++ more) !! l'
         = Some other) ∧
    (length (maps w) ≤
     length (<[l := <["locale" := Locale (receiver w)]> entries]> (maps w) ++ more))%nat)
    as Hheap.
  { intros more. split_and!.
    - apply lookup_app_l_Some. by apply list_lookup_insert_eq.
    - intros l' other Hne Hl'. apply lookup_app_l_Some.
      by rewrite list_lookup_insert_ne.
    - rewrite length_app, length_insert. lia. }
  destruct (parsed _ _); simpl; cycle 1.
  { specialize (Hheap []). by rewrite app_nil_r in Hheap. }
  destruct (decide _); simpl.
  { specialize (Hheap []). by rewrite app_nil_r in Hheap. }
  destruct (hmac_Write _ _); simpl; apply Hheap.
Qed.

(** X13. Whatever the outcome of [getWithParams] on a map of the
    caller, that map holds the locale of the client afterwards, every
    other map of the heap is as before, and the heap has not shrunk. *)
Theorem getWithParams_heap (path : string) (l : nat)
    (entries : gmap string string) (w : World) :
  maps w !! l = Some entries →
  let w' := (getWithParams path (Some l) w).2 in
  maps w' !! l = Some (<["locale" := Locale (receiver w)]> entries) ∧
  (∀ l' other, l' ≠ l → maps w !! l' = Some other →
     maps w' !! l' = Some other) ∧
  (length (maps w) ≤ length (maps w'))%nat.
Proof. apply getWithParams_maps. Qed.

(** X18. A call that makes its own map leaves every map of the caller
    as it was. *)
Theorem own_map_frame (c : call) (w : World) (l : nat)
    (entries : gmap string string) :
  own_map c = true →
  maps w !! l = Some entries →
  maps (invoke c w).2 !! l = Some entries.
Proof.
  intros Hown Hl.
  destruct (validateCharacterFields (fieldsOf c)) as [err|] eqn:Hv.
  - destruct c; try discriminate. simpl in Hv. simpl.
    unfold GetCharacterWithFields. by rewrite Hv.
  - apply validateCharacterFields_None in Hv.
    destruct (own_map_decomposes c w Hown Hv) as (path & init & f & _ & -> & _).
    rewrite bind_pure_state.
    assert (l < length (maps w))%nat as Hlt by by eapply lookup_lt_Some.
    eapply (getWithParams_maps path (length (maps w)) init
              (mkWorld (receiver w) (maps w ++ [init]) (trace w))).
    + apply fresh_lookup.
    + lia.
    + simpl. by apply lookup_app_l_Some.
Qed.

(** X14. Building a URL twice on the same map changes the heap once:
    after the first [url] the map holds the locale, and a second [url],
    for any path, returns and leaves the heap as the first left it. *)
Theorem url_twice (path1 path2 : string) (l : nat)
    (entries : gmap string string) (w : World) :
  maps w !! l = Some entries →
  let w1 := (url path1 (Some l) w).2 in
  let w2 := (url path2 (Some l) w1).2 in
  (∃ u, (url path2 (Some l) w1).1 = Done u ∧
        net_url.Path u = "/api/wow/" +:+ path2) ∧
  maps w2 = maps w1 ∧
  maps w1 !! l = Some (<["locale" := Locale (receiver w)]> entries).
Proof.
  intros Hl. simpl. rewrite (url_live _ _ _ _ Hl). simpl.
  assert (l < length (maps w))%nat as Hlt by by eapply lookup_lt_Some.
  erewrite url_live by by apply list_lookup_insert_eq. simpl.
  split_and!.
  - by eexists.
  - by rewrite insert_insert_eq, list_insert_insert_eq.
  - by apply list_lookup_insert_eq.
Qed.

(** *** What [getWithParams] returns *)

(** X16. When [getWithParams] returns an error, the body beside it is
    empty, and the error is that of [http.NewRequest] for the URL
    built, with nothing handed to [client.Do], or that of [client.Do]
    or of [ioutil.ReadAll] for the one request made from that URL;
    when it returns no error, the body is what [ioutil.ReadAll] read
    from the response to that one request. *)
Theorem getWithParams_result (path : string) (l : nat)
    (entries : gmap string string) (w : World)
    (body : string) (oerr : option error) :
  maps w !! l = Some entries →
  (getWithParams path (Some l) w).1 = Done (body, oerr) →
  let a := receiver w in
  let u := builtURL a path
             (range_order (length (trace w))
                (<["locale" := Locale a]> entries)) in
  ∃ evs, added w (getWithParams path (Some l) w).2 evs ∧
    match oerr with
    | Some err =>
        body = "" ∧
        (requestsOf evs = [] ∧ parsed "GET" u = Err err ∨
         ∃ u',
           let request := http.mkRequest "GET" u' (headersOf a) in
           parsed "GET" u = Ok u' ∧ requestsOf evs = [request] ∧
           (round_trip (doInstant w) request = Err err ∨
            ∃ response,
              round_trip (doInstant w) request = Ok response ∧
              ioutil_ReadAll response = Err err))
    | None =>
        ∃ u' response,
          let request := http.mkRequest "GET" u' (headersOf a) in
          parsed "GET" u = Ok u' ∧ requestsOf evs = [request] ∧
          round_trip (doInstant w) request = Ok response ∧
          ioutil_ReadAll response = Ok body
    end.
Proof.
  intros Hl. pose proof (getWithParams_run path _ _ _ Hl) as Hrun.
  simpl in *.
  assert (∀ u' evs,
    requestsOf evs = [http.mkRequest "GET" u' (headersOf (receiver w))] →
    parsed "GET"
      (builtURL (receiver w) path
         (range_order (length (trace w))
            (<["locale" := Locale (receiver w)]> entries))) = Ok u' →
    Done (readBody (round_trip (doInstant w)
                      (http.mkRequest "GET" u' (headersOf (receiver w))))) =
      Done (body, oerr) →
    match oerr with
    | Some err =>
        body = "" ∧
        (requestsOf evs = [] ∧
           parsed "GET"
             (builtURL (receiver w) path
                (range_order (length (trace w))
                   (<["locale" := Locale (receiver w)]> entries))) = Err err ∨
         ∃ u'0,
           parsed "GET"
             (builtURL (receiver w) path
                (range_order (length (trace w))
                   (<["locale" := Locale (receiver w)]> entries))) = Ok u'0 ∧
           requestsOf evs =
             [http.mkRequest "GET" u'0 (headersOf (receiver w))] ∧
           (round_trip (doInstant w)
              (http.mkRequest "GET" u'0 (headersOf (receiver w))) = Err err ∨
            ∃ response,
              round_trip (doInstant w)
                (http.mkRequest "GET" u'0 (headersOf (receiver w))) =
                Ok response ∧
              ioutil_ReadAll response = Err err))
    | None =>
        ∃ u'0 response,
          parsed "GET"
            (builtURL (receiver w) path
               (range_order (length (trace w))
                  (<["locale" := Locale (receiver w)]> entries))) = Ok u'0 ∧
          requestsOf evs =
            [http.mkRequest "GET" u'0 (headersOf (receiver w))] ∧
          round_trip (doInstant w)
            (http.mkRequest "GET" u'0 (headersOf (receiver w))) =
            Ok response ∧
          ioutil_ReadAll response = Ok body
    end) as Hread.
  { intros u' evs Hevs Hparsed. unfold readBody.
    destruct (round_trip _ _) as [response|err] eqn:Hrt.
    - destruct (ioutil_ReadAll response) as [b|err] eqn:Hra.
      + intros [= <- <-]. by eexists _, _.
      + intros [= <- <-]. split; [done|]. right. eexists.
        split; [done|]. split; [done|]. right. by eexists.
    - intros [= <- <-]. split; [done|]. right. eexists.
      split; [done|]. split; [done|]. by left. }
  destruct (parsed _ _) as [u'|err] eqn:Hparsed.
  - destruct (decide _).
    + destruct Hrun as [-> Hadd]. intros Hres.
      eexists. split; [exact Hadd|]. by eapply Hread.
    + destruct (hmac_Write _ _); destruct Hrun as [-> Hadd]; [done|].
      intros Hres. eexists. split; [exact Hadd|]. by eapply Hread.
  - destruct Hrun as [-> Hadd]. intros [= <- <-].
    eexists. split; [exact Hadd|]. split; [done|]. by left.
Qed.

(** X19. When the fetch succeeds, a getter returns what
    [json.Unmarshal] makes of the body, its error included, and
    [GetChallenges] returns the challenges of the decoded set: with a
    [mac.Write] that reports no error, if [http.NewRequest] accepts
    the URL built for the resource, [client.Do] answers the request
    made from it and the body of the response is read, the result is
    the decoding of that body. *)
Theorem decode_after_fetch (id : Z) (realm : string) (w : World) :
  (∀ key p, hmac_Write key p = None) →
  let a := receiver w in
  let order := range_order (length (trace w)) (<["locale" := Locale a]> ∅) in
  let segment := if String.eqb realm "" then "region" else realm in
  (∀ u' response body,
     parsed "GET" (builtURL a ("achievement/" +:+ Itoa id) order) = Ok u' →
     round_trip (doInstant w) (http.mkRequest "GET" u' (headersOf a)) =
       Ok response →
     ioutil_ReadAll response = Ok body →
     (GetAchievement id w).1 = Done (json_Unmarshal body)) ∧
  (∀ u' response body,
     parsed "GET" (builtURL a ("challenge/" +:+ segment) order) = Ok u' →
     round_trip (doInstant w) (http.mkRequest "GET" u' (headersOf a)) =
       Ok response →
     ioutil_ReadAll response = Ok body →
     (GetChallenges realm w).1 =
       Done (match json_Unmarshal body with
             | Ok set => Ok (Challenges set)
             | Err err => Err err
             end)).
Proof.
  intros Hmac. simpl.
  assert (∀ path u' response body,
    parsed "GET"
      (builtURL (receiver w) path
         (range_order (length (trace w))
            (<["locale" := Locale (receiver w)]> ∅))) = Ok u' →
    round_trip (doInstant w)
      (http.mkRequest "GET" u' (headersOf (receiver w))) = Ok response →
    ioutil_ReadAll response = Ok body →
    (get path w).1 = Done (body, None)) as Hget.
  { intros path u' response body Hparsed Hnet Hread.
    pose proof (get_run path w) as Hrun. simpl in Hrun.
    rewrite Hparsed in Hrun. unfold readBody in Hrun.
    rewrite Hnet, Hread in Hrun. destruct (decide _).
    - by destruct Hrun as [-> _].
    - rewrite Hmac in Hrun. by destruct Hrun as [-> _]. }
  split.
  - intros u' response body Hparsed Hnet Hread.
    unfold GetAchievement.
    by rewrite bind_pure_value, (Hget _ _ _ _ Hparsed Hnet Hread).
  - intros u' response body Hparsed Hnet Hread.
    unfold GetChallenges.
    by rewrite bind_pure_value, (Hget _ _ _ _ Hparsed Hnet Hread).
Qed.

(** X21. The names go into the path as they are: a slash in the realm
    cannot be told from the separator, so [GetCharacter] for the realm
    r/n and the name m behaves exactly as for the realm r and the name
    n/m. *)
Theorem GetCharacter_slash (realm name rest : string) (w : World) :
  GetCharacter (realm +:+ "/" +:+ name) rest w =
  GetCharacter realm (name +:+ "/" +:+ rest) w.
Proof.
  unfold GetCharacter, GetCharacterWithFields.
  by rewrite !StringFacts.app_assoc.
Qed.

End CallFacts.

(** ** Sample runs of the further facts *)

Lemma authorization_written_witness :
  ∃ evs,
    added (Sample.start Sample.keyed)
          (@invoke Sample.runtime Sample.records (Call_GetAchievement 2144)
             (Sample.start Sample.keyed)).2 evs ∧
    (∀ request, Sent request ∈ evs →
       http.written request = Some [("Authorization", "BNET pk:aGk=")]) ∧
    ∃ request, Sent request ∈ evs.
Proof.
  destruct (@authorization_written Sample.runtime Sample.records
              (Call_GetAchievement 2144) (Sample.start Sample.keyed))
    as (evs & Hadd & Hev & Hsent); [reflexivity|].
  exists evs. split; [exact Hadd|]. split.
  - intros request Hin. apply (Hev request Hin). discriminate.
  - eapply Hsent; vm_compute; reflexivity.
Defined.

Lemma validateCharacterFields_app_witness :
  validateCharacterFields ["pvp"; "guild"] = None ↔
  validateCharacterFields ["guild"; "pvp"] = None.
Proof.
  apply (proj1 (proj2 (validateCharacterFields_app ["guild"; "pvp"] []))).
  apply perm_swap.
Defined.

Lemma request_shape_witness :
  ∃ evs,
    added (Sample.start Sample.anonymous)
          (@invoke Sample.runtime Sample.records
             (Call_GetBattlePetSpecies 258) (Sample.start Sample.anonymous)).2
          evs ∧
    (∀ request, request ∈ requestsOf evs →
       http.Method request = "GET" ∧
       ∃ u, net_url.Scheme u = "http" ∧
            net_url.Host u = "eu.battle.net" ∧
            net_url.Path u = "/api/wow/battlePet/species/258" ∧
            @parsed Sample.runtime "GET" u = Ok (http.URL request)) ∧
    ∃ request, request ∈ requestsOf evs.
Proof.
  destruct (@request_shape Sample.runtime Sample.records
              (Call_GetBattlePetSpecies 258) "battlePet/species/258"
              (Sample.start Sample.anonymous))
    as (evs & Hadd & Hev & Hsent); [reflexivity|].
  exists evs. split; [exact Hadd|]. split; [exact Hev|].
  eapply Hsent; vm_compute; reflexivity.
Defined.

Lemma get_query_witness :
  let a := mkApiClient "eu.battle.net" "en#GB" "" "" in
  let u := net_url.mkURL "http" "eu.battle.net" "/api/wow/auction/data/medivh"
                         "locale=en#GB" in
  net_url.RawQuery u = "locale=en#GB" ∧
  ∃ evs,
    added (Sample.start a)
          (@invoke Faulty.cutting Sample.records
             (Call_GetAuctionData "medivh") (Sample.start a)).2 evs ∧
    (∀ request, request ∈ requestsOf evs →
       @parsed Faulty.cutting "GET" u = Ok (http.URL request)) ∧
    ∃ request, request ∈ requestsOf evs.
Proof.
  intros a u.
  destruct (@get_query Faulty.cutting Sample.records
              (Call_GetAuctionData "medivh") "auction/data/medivh"
              (Sample.start a))
    as (Hquery & evs & Hadd & Hev & Hsent).
  - reflexivity.
  - reflexivity.
  - intros n m. reflexivity.
  - split; [exact Hquery|]. exists evs. split; [exact Hadd|].
    split; [exact Hev|]. eapply Hsent; vm_compute; reflexivity.
Defined.



Lemma GetCharacterWithFields_rejects_witness :
  ∃ err,
    validateCharacterFields ["guild"; "gear"] = Some err ∧
    @GetCharacterWithFields Sample.runtime Sample.records
      "medivh" "thrall" ["guild"; "gear"] (Sample.start Sample.anonymous) =
    (Done (Err err), Sample.start Sample.anonymous).
Proof.
  apply (@GetCharacterWithFields_rejects Sample.runtime Sample.records).
  apply Exists_cons_tl, Exists_cons_hd.
  intros Hin. unfold characterFields in Hin. list_cases Hin; discriminate.
Defined.


Lemma fetch_error_is_returned_witness :
  ∃ r evs,
    (@invoke Faulty.offline Sample.records
       (Call_GetChallenges "") (Sample.start Sample.anonymous)).1 = Done r ∧
    @errorOf Sample.records (Call_GetChallenges "") r =
      Some (errors_New "no route to host") ∧
    added (Sample.start Sample.anonymous)
          (@invoke Faulty.offline Sample.records
             (Call_GetChallenges "") (Sample.start Sample.anonymous)).2
          evs ∧
    requestsOf evs =
      [ http.mkRequest "GET"
          (net_url.mkURL "http" "eu.battle.net" "/api/wow/challenge/region"
                         "locale=en_GB") [] ].
Proof.
  apply (proj2 (@fetch_error_is_returned Faulty.offline Sample.records
                  (Call_GetChallenges "") "challenge/region"
                  (Sample.start Sample.anonymous)
                  (errors_New "no route to host") eq_refl eq_refl)
           (net_url.mkURL "http" "eu.battle.net" "/api/wow/challenge/region"
                          "locale=en_GB")).
  - reflexivity.
  - reflexivity.
  - reflexivity.
Defined.

Lemma getWithParams_heap_witness :
  let w := mkWorld Sample.keyed [ {["a" := "1"]}; {["level" := "25"]} ] [] in
  let w' := (@getWithParams Sample.runtime "battlePet/stats/42"
               (Some 1%nat) w).2 in
  maps w' !! 1%nat = Some (<["locale" := "en_US"]> {["level" := "25"]}) ∧
  (∀ l' other, l' ≠ 1%nat → maps w !! l' = Some other →
     maps w' !! l' = Some other) ∧
  (length (maps w) ≤ length (maps w'))%nat.
Proof.
  intros w.
  apply (@getWithParams_heap Sample.runtime "battlePet/stats/42" 1%nat
           {["level" := "25"]} w).
  reflexivity.
Defined.

Lemma own_map_frame_witness :
  maps (@invoke Sample.runtime Sample.records (Call_GetCharacter "medivh" "thrall")
          (mkWorld Sample.keyed [ {["mine" := "1"]} ] [])).2 !! 0%nat =
  Some {["mine" := "1"]}.
Proof.
  apply (@own_map_frame Sample.runtime Sample.records
           (Call_GetCharacter "medivh" "thrall")
           (mkWorld Sample.keyed [ {["mine" := "1"]} ] []) 0%nat).
  - reflexivity.
  - reflexivity.
Defined.

Lemma url_twice_witness :
  let w := mkWorld Sample.anonymous [ {["locale" := "fr_FR"]} ] [] in
  let w1 := (@url Sample.runtime "achievement/1" (Some 0%nat) w).2 in
  let w2 := (@url Sample.runtime "achievement/2" (Some 0%nat) w1).2 in
  (∃ u, (@url Sample.runtime "achievement/2" (Some 0%nat) w1).1 = Done u ∧
        net_url.Path u = "/api/wow/achievement/2") ∧
  maps w2 = maps w1 ∧
  maps w1 !! 0%nat = Some (<["locale" := "en_GB"]> {["locale" := "fr_FR"]}).
Proof.
  intros w.
  apply (@url_twice Sample.runtime "achievement/1" "achievement/2" 0%nat
           {["locale" := "fr_FR"]} w).
  reflexivity.
Defined.

Lemma getWithParams_result_witness :
  let w := mkWorld Sample.anonymous [∅] [] in
  let request :=
    http.mkRequest "GET"
      (net_url.mkURL "http" "eu.battle.net" "/api/wow/achievement/1"
                     "locale=en_GB") [] in
  ∃ evs,
    added w (@getWithParams Faulty.offline "achievement/1" (Some 0%nat) w).2
          evs ∧
    requestsOf evs = [request] ∧
    @round_trip Faulty.offline 1%nat request =
      Err (errors_New "no route to host").
Proof.
  intros w request.
  destruct (@getWithParams_result Faulty.offline "achievement/1" 0%nat ∅ w
              "" (Some (errors_New "no route to host")))
    as (evs & Hadd & _ & Hcase); [reflexivity | reflexivity |].
  exists evs. split; [exact Hadd|].
  destruct Hcase as [[_ Hparsed] | (u' & Hparsed & Hevs & _)].
  - discriminate Hparsed.
  - injection Hparsed as <-. split; [exact Hevs | reflexivity].
Defined.

Lemma decode_after_fetch_witness :
  (@GetChallenges Sample.runtime Sample.records "medivh"
     (Sample.start Sample.keyed)).1 = Done (Ok []).
Proof.
  apply (proj2 (@decode_after_fetch Sample.runtime Sample.records 2144
                  "medivh" (Sample.start Sample.keyed)
                  (λ _ _, eq_refl))
           (net_url.mkURL "http" "us.battle.net" "/api/wow/challenge/medivh"
                          "locale=en_US") "{}" "{}");
    reflexivity.
Defined.
